(** * The TUI event loop of kitty's Go tools ([tools/tui/loop.go])

    A shallow embedding of the loop engine: the [Loop] struct, the output
    buffer, the timer queue, the key dispatcher and [Run] with its deferred
    clean-up, followed by the properties the specification states about
    them. *)

From stdpp Require Import list gmap sorting strings.
From Stdlib Require Import ZArith.
From Stdlib.Strings Require Import Byte.

Local Open Scope Z_scope.

(** ** Data model *)

Abbreviation bytes := (list byte).

(** [time.Time] and [time.Duration], both counted in nanoseconds. *)
Definition Time := Z.
Definition Duration := Z.

Definition time_Add (t : Time) (d : Duration) : Time := t + d.
Definition time_Sub (t u : Time) : Duration := t - u.
Definition time_After (t u : Time) : bool := u <? t.
Definition time_Before (t u : Time) : bool := t <? u.

(** The [Signal] enumeration used by the signal bridge. *)
Inductive Signal :=
| SIGNULL | SIGINT | SIGTERM | SIGTSTP | SIGHUP | SIGWINCH | SIGPIPE.

(** The [unix.Errno] values the loop distinguishes. *)
Inductive Errno := EINTR | EAGAIN | EWOULDBLOCK | EOTHER (code : Z).

(** Go [error] values; [nil] is [None]. *)
Inductive Error :=
| io_EOF
| ErrSys (e : Errno)
| ErrNoControllingTerm      (* "No controlling terminal cannot update screen size" *)
| ErrSelect (e : Error)     (* "Failed to call select() with error: %w" *)
| ErrOther (tag : nat).     (* errors made by collaborators and callbacks *)

Abbreviation error := (option Error).

Definition uint_max : Z := 2 ^ 64.
Definition wrap64 (z : Z) : Z := z mod uint_max.

Record ScreenSize := mkScreenSize {
  WidthCells : Z; HeightCells : Z; WidthPx : Z; HeightPx : Z;
  CellWidth : Z; CellHeight : Z;
  updated : bool
}.

(** [unix.Winsize], as returned by the terminal controller. *)
Record Winsize := mkWinsize { Row : Z; Col : Z; Xpixel : Z; Ypixel : Z }.

(** A [*tty.Term]: the handle of the controlling terminal. *)
Record Term := mkTerm { Fd : Z }.

Definition TimerId := Z.

(** Go function values are code pointers; a callback slot holds the index of
    the function in the program's code table ([Program], below). *)
Definition FuncId := nat.

Record timer := mkTimer {
  interval : Duration;
  deadline : Time;
  repeats : bool;
  id : TimerId;
  callback : FuncId
}.

Definition update_deadline (now : Time) (t : timer) : timer :=
  mkTimer (interval t) (time_Add now (interval t)) (repeats t) (id t) (callback t).

Record TerminalStateOptions := mkTSO {
  alternate_screen : bool;
  mouse_tracking : Z
}.

Inductive KeyEventType := PRESS | REPEAT | RELEASE.

(** Modelled from the spec: the [KeyEvent] struct is declared in another file
    of the package; the spec lists identity, modifiers, press/repeat/release
    kind, resolved text and the mutable handled flag. *)
Record KeyEvent := mkKeyEvent {
  Type_ : KeyEventType;
  Mods : Z;
  Key : string;
  Text : bytes;
  Handled : bool
}.

Definition set_Handled (b : bool) (ev : KeyEvent) : KeyEvent :=
  mkKeyEvent (Type_ ev) (Mods ev) (Key ev) (Text ev) b.

(** The [Loop] struct. [timers] is a [[]*timer]: an entry may be [nil].
    The state of the escape code parser belongs to the external decoder and
    is not kept here. *)
Record Loop := mkLoop {
  controlling_term : option Term;
  terminal_options : TerminalStateOptions;
  screen_size : ScreenSize;
  keep_going : bool;
  flush_write_buf : bool;
  death_signal : Signal;
  exit_code : Z;
  write_buf : bytes;
  timers : list (option timer);
  timer_id_counter : TimerId;
  OnInitialize : option FuncId;
  OnKeyEvent : option FuncId;
  OnText : option FuncId;
  OnResize : option FuncId;
  OnWriteComplete : option FuncId;
  OnRCResponse : option FuncId;
  OnReceivedData : option FuncId
}.

Definition with_controlling_term (v : option Term) (l : Loop) : Loop :=
  let 'mkLoop _ b c d e f g h i j k m n o p q r := l in mkLoop v b c d e f g h i j k m n o p q r.
Definition with_terminal_options (v : TerminalStateOptions) (l : Loop) : Loop :=
  let 'mkLoop a _ c d e f g h i j k m n o p q r := l in mkLoop a v c d e f g h i j k m n o p q r.
Definition with_screen_size (v : ScreenSize) (l : Loop) : Loop :=
  let 'mkLoop a b _ d e f g h i j k m n o p q r := l in mkLoop a b v d e f g h i j k m n o p q r.
Definition with_keep_going (v : bool) (l : Loop) : Loop :=
  let 'mkLoop a b c _ e f g h i j k m n o p q r := l in mkLoop a b c v e f g h i j k m n o p q r.
Definition with_flush_write_buf (v : bool) (l : Loop) : Loop :=
  let 'mkLoop a b c d _ f g h i j k m n o p q r := l in mkLoop a b c d v f g h i j k m n o p q r.
Definition with_death_signal (v : Signal) (l : Loop) : Loop :=
  let 'mkLoop a b c d e _ g h i j k m n o p q r := l in mkLoop a b c d e v g h i j k m n o p q r.
Definition with_exit_code (v : Z) (l : Loop) : Loop :=
  let 'mkLoop a b c d e f _ h i j k m n o p q r := l in mkLoop a b c d e f v h i j k m n o p q r.
Definition with_write_buf (v : bytes) (l : Loop) : Loop :=
  let 'mkLoop a b c d e f g _ i j k m n o p q r := l in mkLoop a b c d e f g v i j k m n o p q r.
Definition with_timers (v : list (option timer)) (l : Loop) : Loop :=
  let 'mkLoop a b c d e f g h _ j k m n o p q r := l in mkLoop a b c d e f g h v j k m n o p q r.
Definition with_timer_id_counter (v : TimerId) (l : Loop) : Loop :=
  let 'mkLoop a b c d e f g h i _ k m n o p q r := l in mkLoop a b c d e f g h i v k m n o p q r.

(** The code table: what each function value does when it is called. A
    callback receives the loop by pointer, so it is a transformer of the
    [Loop]; [fn_key] also returns the event it was handed, which it may have
    changed. *)
Record Program := mkProgram {
  fn_init : FuncId -> Loop -> Loop * (bytes * error);
  fn_key : FuncId -> Loop -> KeyEvent -> Loop * (KeyEvent * error);
  fn_text : FuncId -> Loop -> bytes -> bool -> bool -> Loop * error;
  fn_resize : FuncId -> Loop -> ScreenSize -> ScreenSize -> Loop * error;
  fn_write_complete : FuncId -> Loop -> Loop * error;
  fn_rc_response : FuncId -> Loop -> bytes -> Loop * error;
  fn_received_data : FuncId -> Loop -> bytes -> Loop * error;
  fn_timer : FuncId -> Loop -> TimerId -> Loop * error
}.

(** The collaborators whose code is outside this file. *)
Record Externals := mkExternals {
  (* tty.Term.GetSize *)
  GetSize : Term -> Winsize + Error;
  (* TerminalStateOptions.SetStateEscapeCodes / ResetStateEscapeCodes *)
  SetStateEscapeCodes : TerminalStateOptions -> bytes;
  ResetStateEscapeCodes : TerminalStateOptions -> bytes;
  (* KeyEvent.MatchesPressOrRepeat *)
  MatchesPressOrRepeat : KeyEvent -> string -> bool;
  (* KeyEventFromCSI: nil when the sequence is not a key event *)
  KeyEventFromCSI : bytes -> option KeyEvent
}.

(** ** Observable events

    The model keeps a log next to the loop: what reached the terminal, which
    callbacks were entered and which steps of [Run] were taken. *)
Inductive Hook :=
| HInitialize | HKeyEvent | HText | HResize | HWriteComplete | HRCResponse
| HReceivedData | HTimer (tid : TimerId).

Inductive Event :=
| EvCall (h : Hook)          (* an application callback is entered *)
| EvWrite (data : bytes)     (* bytes accepted by the terminal fd *)
| EvFlush                    (* flush() is entered *)
| EvClear                    (* write_buf is truncated by Run *)
| EvQueue (data : bytes)     (* Run queues bytes itself *)
| EvRestore.                 (* RestoreAndClose on the controlling terminal *)

Record World := mkWorld { loop : Loop; log : list Event }.

(** How a Go function call ends: it returns, it panics, or it is still
    waiting for a wake-up when the scripted wake-ups are over. *)
Inductive res (A : Type) :=
| Ret (a : A)
| Panic
| Pending.
Arguments Ret {A} a.
Arguments Panic {A}.
Arguments Pending {A}.

Definition M (A : Type) : Type := World -> res A * World.

Definition ret {A} (a : A) : M A := fun w => (Ret a, w).
Definition bind {A B} (m : M A) (k : A -> M B) : M B := fun w =>
  match m w with
  | (Ret a, w') => k a w'
  | (Panic, w') => (Panic, w')
  | (Pending, w') => (Pending, w')
  end.
Definition panic {A} : M A := fun w => (Panic, w).
Definition pending {A} : M A := fun w => (Pending, w).
Definition get_loop : M Loop := fun w => (Ret (loop w), w).
Definition put_loop (l : Loop) : M unit := fun w => (Ret tt, mkWorld l (log w)).
Definition modify (f : Loop -> Loop) : M unit := fun w => (Ret tt, mkWorld (f (loop w)) (log w)).
Definition emit (e : Event) : M unit := fun w => (Ret tt, mkWorld (loop w) (log w ++ [e])).

Notation "x <~ m ;; k" := (bind m (fun x => k))
  (at level 100, m at next level, right associativity).
Notation "m ;;; k" := (bind m (fun _ => k))
  (at level 100, right associativity).

(** Enter callback [h]: log it, run the function on the loop. *)
Definition call {A} (h : Hook) (f : Loop -> Loop * A) : M A := fun w =>
  let '(l', a) := f (loop w) in
  (Ret a, mkWorld l' (log w ++ [EvCall h])).

(** ** Reading and writing the terminal fd *)

(** The raw result [(n, err)] of [unix.Read] / [unix.Write]. *)
Definition sysres := (Z * option Errno)%type.

Definition is_temporary (e : Errno) : bool :=
  match e with EINTR | EAGAIN | EWOULDBLOCK => true | EOTHER _ => false end.

Definition read_ignoring_temporary_errors (r : sysres) : Z * error :=
  let '(n, err) := r in
  if from_option is_temporary false err then (0, None)
  else if n =? 0 then (0, Some io_EOF)
  else (n, ErrSys <$> err).

Definition write_ignoring_temporary_errors (r : sysres) : Z * error :=
  let '(n, err) := r in
  if from_option is_temporary false err then (0, None)
  else if n =? 0 then (0, Some io_EOF)
  else (n, ErrSys <$> err).

Definition len {A} (l : list A) : Z := Z.of_nat (length l).

(** [queue_write_to_tty] as the callbacks reach it, through the exported
    methods, and as [Run] calls it (logged). *)
Definition append_write_buf (data : bytes) (l : Loop) : Loop :=
  with_write_buf (write_buf l ++ data) l.

Definition queue_write_to_tty (data : bytes) : M unit :=
  emit (EvQueue data) ;;; modify (append_write_buf data).

Definition QueueWriteString (data : bytes) (l : Loop) : Loop := append_write_buf data l.
Definition QueueWriteBytes (data : bytes) (l : Loop) : Loop := append_write_buf data l.
Definition Beep (l : Loop) : Loop := QueueWriteString [x07] l.

Definition ExitCode (l : Loop) : Z := exit_code l.

Definition Quit (code : Z) (l : Loop) : Loop :=
  with_keep_going false (with_exit_code code l).

(** [write_to_tty]; [sys_write buf] is what [unix.Write] answers when handed
    [buf]. Slicing [write_buf[n:]] beyond the length panics. *)
Definition write_to_tty (sys_write : bytes -> sysres) : M error :=
  l <~ get_loop ;;
  if (len (write_buf l) =? 0) || bool_decide (controlling_term l = None) then ret None
  else
    let '(n, err) := write_ignoring_temporary_errors (sys_write (write_buf l)) in
    match err with
    | Some e => ret (Some e)
    | None =>
      if n <=? 0 then ret None
      else if len (write_buf l) <? n then panic
      else
        let remainder := drop (Z.to_nat n) (write_buf l) in
        emit (EvWrite (take (Z.to_nat n) (write_buf l))) ;;;
        (if 0 <? len remainder
         then modify (with_write_buf remainder)   (* copy(write_buf, remainder) *)
         else modify (with_write_buf (take 0 (write_buf l)))) ;;;
        ret None
    end.

(** Control flow inside a function body: go on, or return this error value. *)
Inductive ctl := Next | Return (e : error).

(** [if err != nil { return err }] after a call. *)
Definition check (m : M error) (k : M ctl) : M ctl :=
  err <~ m ;;
  match err with
  | Some e => ret (Return (Some e))
  | None => k
  end.

Notation "'try' m ;; k" := (check m k)
  (at level 100, m at next level, right associativity).

Definition finish (m : M ctl) : M error :=
  c <~ m ;;
  match c with
  | Next => ret None
  | Return e => ret e
  end.

(** ** The timer queue *)

(** [sort.SliceStable] with [less a b := a.deadline.Before(b.deadline)]. A
    stable sort has one result, so it is written as the insertion sort:
    an element goes in front of the first one that is not before it. *)
Fixpoint insert_by_deadline (t : timer) (ts : list timer) : list timer :=
  match ts with
  | [] => [t]
  | u :: ts' =>
    if time_Before (deadline u) (deadline t)
    then u :: insert_by_deadline t ts'
    else t :: u :: ts'
  end.

Definition SliceStable (ts : list timer) : list timer :=
  foldr insert_by_deadline [] ts.

(** The entries of a [[]*timer] when none is nil. *)
Definition deref_all (ts : list (option timer)) : option (list timer) :=
  mapM (fun t => t) ts.

(** Sorting compares every entry as soon as there are two of them, and the
    comparison dereferences both. *)
Definition sort_timers : M unit :=
  l <~ get_loop ;;
  match deref_all (timers l) with
  | Some ts => modify (with_timers (Some <$> SliceStable ts))
  | None => if len (timers l) <? 2 then ret tt else panic
  end.

Definition AddTimer (now : Time) (interval : Duration) (repeats : bool)
    (callback : FuncId) : M TimerId :=
  modify (fun l => with_timer_id_counter (wrap64 (timer_id_counter l + 1)) l) ;;;
  l <~ get_loop ;;
  let t := update_deadline now (mkTimer interval 0 repeats (timer_id_counter l) callback) in
  modify (with_timers (timers l ++ [Some t])) ;;;
  sort_timers ;;;
  ret (id t).

(** The scan of [RemoveTimer]: [None] is the nil dereference of
    [self.timers[i].id]. *)
Fixpoint remove_scan (tid : TimerId) (ts : list (option timer))
    : option (bool * list (option timer)) :=
  match ts with
  | [] => Some (false, [])
  | None :: _ => None
  | Some t :: ts' =>
    if id t =? tid then Some (true, ts')
    else
      match remove_scan tid ts' with
      | Some (found, rest) => Some (found, Some t :: rest)
      | None => None
      end
  end.

Definition RemoveTimer (tid : TimerId) : M bool :=
  l <~ get_loop ;;
  match remove_scan tid (timers l) with
  | Some (found, ts) =>
    (if found then modify (with_timers ts) else ret tt) ;;;
    ret found
  | None => panic
  end.

Definition NoAlternateScreen (l : Loop) : Loop :=
  with_terminal_options (mkTSO false (mouse_tracking (terminal_options l))) l.

Definition MouseTracking (mt : Z) (l : Loop) : Loop :=
  with_terminal_options (mkTSO (alternate_screen (terminal_options l)) mt) l.

Definition zero_ScreenSize : ScreenSize := mkScreenSize 0 0 0 0 0 0 false.

Definition CreateLoop : Loop :=
  mkLoop None (mkTSO true 0) zero_ScreenSize false false SIGNULL 0 [] [] 0
         None None None None None None None.

Section LoopCode.

Variable P : Program.
Variable X : Externals.

(** The first loop of [dispatch_timers], over the slice as it stands when
    the loop is entered; [i] is the position reached. The timer is reached
    through its pointer, which is the entry at [i] of [self.timers] as long
    as the callbacks leave the slice alone. *)
Fixpoint dispatch_scan (now : Time) (i : nat) (ts : list (option timer))
    (upd : bool) (remove : gset Z) : M (error * bool * gset Z) :=
  match ts with
  | [] => ret (None, upd, remove)
  | None :: _ => panic
  | Some t :: ts' =>
    if time_After now (deadline t) then
      err <~ call (HTimer (id t)) (fun s => fn_timer P (callback t) s (id t)) ;;
      match err with
      | Some e => ret (Some e, upd, remove)
      | None =>
        if repeats t then
          modify (fun l => with_timers (alter (fmap (update_deadline now)) i (timers l)) l) ;;;
          dispatch_scan now (S i) ts' true remove
        else
          dispatch_scan now (S i) ts' upd ({[ id t ]} ∪ remove)
      end
    else dispatch_scan now (S i) ts' upd remove
  end.

(** The second loop: the entries that stay are appended to the new slice. *)
Fixpoint keep_scan (remove : gset Z) (ts : list (option timer))
    (acc : list (option timer)) : M (list (option timer)) :=
  match ts with
  | [] => ret acc
  | None :: _ => panic
  | Some t :: ts' =>
    if bool_decide (id t ∈ remove)
    then keep_scan remove ts' acc
    else keep_scan remove ts' (acc ++ [Some t])
  end.

(** [make([]*timer, n)]: [n] nil entries; a negative length panics. *)
Definition make_timers (n : Z) : M (list (option timer)) :=
  if n <? 0 then panic else ret (replicate (Z.to_nat n) None).

Definition dispatch_timers (now : Time) : M error :=
  l <~ get_loop ;;
  r <~ dispatch_scan now 0 (timers l) false ∅ ;;
  let '(err, upd, remove) := r in
  match err with
  | Some e => ret (Some e)
  | None =>
    (if 0 <? Z.of_nat (size remove) then
       l <~ get_loop ;;
       fresh <~ make_timers (len (timers l) - Z.of_nat (size remove)) ;;
       kept <~ keep_scan remove (timers l) fresh ;;
       modify (with_timers kept)
     else ret tt) ;;;
    (if upd then sort_timers else ret tt) ;;;
    ret None
  end.

(** ** Screen size *)

(** A method of a nil [*tty.Term] dereferences the receiver. *)
Definition term_GetSize (t : option Term) : M (Winsize + Error) :=
  match t with
  | None => panic
  | Some t => ret (GetSize X t)
  end.

(** Unsigned division as Go does it: a zero divisor panics. *)
Definition udiv (a b : Z) : M Z :=
  if b =? 0 then panic else ret (a / b).

Definition set_updated (b : bool) (s : ScreenSize) : ScreenSize :=
  mkScreenSize (WidthCells s) (HeightCells s) (WidthPx s) (HeightPx s)
               (CellWidth s) (CellHeight s) b.
Definition set_cells (h w : Z) (s : ScreenSize) : ScreenSize :=
  mkScreenSize w h (WidthPx s) (HeightPx s) (CellWidth s) (CellHeight s) (updated s).
Definition set_px (h w : Z) (s : ScreenSize) : ScreenSize :=
  mkScreenSize (WidthCells s) (HeightCells s) w h (CellWidth s) (CellHeight s) (updated s).
Definition set_CellWidth (v : Z) (s : ScreenSize) : ScreenSize :=
  mkScreenSize (WidthCells s) (HeightCells s) (WidthPx s) (HeightPx s)
               v (CellHeight s) (updated s).
Definition set_CellHeight (v : Z) (s : ScreenSize) : ScreenSize :=
  mkScreenSize (WidthCells s) (HeightCells s) (WidthPx s) (HeightPx s)
               (CellWidth s) v (updated s).

(** An assignment through [s := &self.screen_size]. *)
Definition modify_size (f : ScreenSize -> ScreenSize) : M unit :=
  modify (fun l => with_screen_size (f (screen_size l)) l).

Definition update_screen_size : M error :=
  l <~ get_loop ;;
  if bool_decide (controlling_term l <> None)
  then ret (Some ErrNoControllingTerm)
  else
    r <~ term_GetSize (controlling_term l) ;;
    match r with
    | inr e => ret (Some e)
    | inl ws =>
      modify_size (set_updated true) ;;;
      modify_size (set_cells (Row ws) (Col ws)) ;;;
      modify_size (set_px (Ypixel ws) (Xpixel ws)) ;;;
      l <~ get_loop ;;
      cw <~ udiv (WidthPx (screen_size l)) (WidthCells (screen_size l)) ;;
      modify_size (set_CellWidth cw) ;;;
      l <~ get_loop ;;
      ch <~ udiv (HeightPx (screen_size l)) (HeightCells (screen_size l)) ;;
      modify_size (set_CellHeight ch) ;;;
      ret None
    end.

Definition Loop_ScreenSize : M (ScreenSize * error) :=
  l <~ get_loop ;;
  if updated (screen_size l) then ret (screen_size l, None)
  else
    err <~ update_screen_size ;;
    l' <~ get_loop ;;
    ret (screen_size l', err).

(** ** Signal handlers *)

Definition on_SIGINT : M error :=
  modify (with_death_signal SIGINT) ;;;
  modify (with_keep_going false) ;;;
  ret None.

Definition on_SIGPIPE : M error := ret None.

Definition on_SIGWINCH : M error :=
  modify_size (set_updated false) ;;;
  l <~ get_loop ;;
  match OnResize l with
  | Some f =>
    let old_size := screen_size l in
    err <~ update_screen_size ;;
    match err with
    | Some e => ret (Some e)
    | None =>
      l' <~ get_loop ;;
      call HResize (fun s => fn_resize P f s old_size (screen_size l'))
    end
  | None => ret None
  end.

Definition on_SIGTERM : M error :=
  modify (with_death_signal SIGTERM) ;;;
  modify (with_keep_going false) ;;;
  ret None.

Definition on_SIGTSTP : M error := ret None.

Definition on_SIGHUP : M error :=
  modify (with_flush_write_buf false) ;;;
  modify (with_death_signal SIGHUP) ;;;
  modify (with_keep_going false) ;;;
  ret None.

(** ** The input dispatcher *)

(** The event is passed by pointer: the result carries it back. *)
Definition handle_key_event (ev : KeyEvent) : M (KeyEvent * error) :=
  l <~ get_loop ;;
  r <~ match OnKeyEvent l with
       | Some f =>
         out <~ call HKeyEvent (fun s => fn_key P f s ev) ;;
         let '(ev', err) := out in
         match err with
         | Some e => ret (inl (ev', Some e))
         | None => if Handled ev' then ret (inl (ev', None)) else ret (inr ev')
         end
       | None => ret (inr ev)
       end ;;
  match r with
  | inl out => ret out
  | inr ev =>
    if MatchesPressOrRepeat X ev "ctrl+c" then
      let ev := set_Handled true ev in
      err <~ on_SIGINT ;; ret (ev, err)
    else if MatchesPressOrRepeat X ev "ctrl+z" then
      let ev := set_Handled true ev in
      err <~ on_SIGTSTP ;; ret (ev, err)
    else
      l <~ get_loop ;;
      match OnText l with
      | Some f =>
        if negb (len (Text ev) =? 0)
        then err <~ call HText (fun s => fn_text P f s (Text ev) true false) ;; ret (ev, err)
        else ret (ev, None)
      | None => ret (ev, None)
      end
  end.

Definition handle_csi (raw : bytes) : M error :=
  match KeyEventFromCSI X raw with
  | Some ke => r <~ handle_key_event ke ;; ret (snd r)
  | None => ret None
  end.

Definition handle_osc (raw : bytes) : M error := ret None.

Definition kitty_cmd : bytes := String.list_byte_of_string "@kitty-cmd".

Fixpoint HasPrefix (s pre : bytes) : bool :=
  match pre, s with
  | [], _ => true
  | p :: pre', c :: s' => Byte.eqb p c && HasPrefix s' pre'
  | _ :: _, [] => false
  end.

Definition handle_dcs (raw : bytes) : M error :=
  l <~ get_loop ;;
  match OnRCResponse l with
  | Some f =>
    if HasPrefix raw kitty_cmd
    then call HRCResponse (fun s => fn_rc_response P f s (drop (length kitty_cmd) raw))
    else ret None
  | None => ret None
  end.

Definition handle_apc (raw : bytes) : M error := ret None.
Definition handle_sos (raw : bytes) : M error := ret None.
Definition handle_pm (raw : bytes) : M error := ret None.

(** [text] is [string(raw)]; [in_paste] is what the decoder answers to
    [InBracketedPaste()] at that moment. *)
Definition handle_rune (text : bytes) (in_paste : bool) : M error :=
  l <~ get_loop ;;
  match OnText l with
  | Some f => call HText (fun s => fn_text P f s text false in_paste)
  | None => ret None
  end.

(** ** Collaborators driven by the loop *)

(** What the escape code decoder hands over while it is fed. *)
Inductive Decoded :=
| DCSI (raw : bytes)
| DOSC (raw : bytes)
| DDCS (raw : bytes)
| DAPC (raw : bytes)
| DSOS (raw : bytes)
| DPM (raw : bytes)
| DRune (text : bytes) (in_paste : bool).

Definition handle_decoded (d : Decoded) : M error :=
  match d with
  | DCSI raw => handle_csi raw
  | DOSC raw => handle_osc raw
  | DDCS raw => handle_dcs raw
  | DAPC raw => handle_apc raw
  | DSOS raw => handle_sos raw
  | DPM raw => handle_pm raw
  | DRune text in_paste => handle_rune text in_paste
  end.

(** Modelled from the spec: [escape_code_parser.Parse] is the external
    decoder; it invokes the registered per-category callbacks synchronously
    during the feed and returns an error. [items] is what it decodes from the
    bytes it is fed; the first handler error ends the feed. *)
Fixpoint Parse (items : list Decoded) : M error :=
  match items with
  | [] => ret None
  | d :: rest =>
    err <~ handle_decoded d ;;
    match err with
    | Some e => ret (Some e)
    | None => Parse rest
    end
  end.

Definition on_signal (s : Signal) : M error :=
  match s with
  | SIGNULL => ret None
  | SIGINT => on_SIGINT
  | SIGTERM => on_SIGTERM
  | SIGTSTP => on_SIGTSTP
  | SIGHUP => on_SIGHUP
  | SIGWINCH => on_SIGWINCH
  | SIGPIPE => on_SIGPIPE
  end.

(** Modelled from the spec: [read_signals] is in another file of the
    package; the main loop reads the available records from the pipe and maps
    each to its handler. [read_err] is the result of the read, [sigs] the
    records read. *)
Fixpoint dispatch_signals (sigs : list Signal) : M error :=
  match sigs with
  | [] => ret None
  | s :: rest =>
    err <~ on_signal s ;;
    match err with
    | Some e => ret (Some e)
    | None => dispatch_signals rest
    end
  end.

Definition read_signals (read_err : error) (sigs : list Signal) : M error :=
  match read_err with
  | Some e => ret (Some e)
  | None => dispatch_signals sigs
  end.

(** ** Flushing the output buffer *)

(** One turn of the loop in [flush]: whether the two seconds are over, what
    [selector.Wait] answers, whether the terminal is writable, and the write
    primitive at that moment. *)
Record FlushWake := mkFlushWake {
  fw_expired : bool;
  fw_wait : Z * error;
  fw_writable : bool;
  fw_write : bytes -> sysres
}.

(** The turns listed are those that happen before the deadline; after them
    the deadline has passed. *)
Fixpoint flush_loop (script : list FlushWake) : M error :=
  l <~ get_loop ;;
  if 0 <? len (write_buf l) then
    match script with
    | [] => ret None
    | s :: rest =>
      if fw_expired s then ret None
      else
        match snd (fw_wait s) with
        | Some e => ret (Some e)
        | None =>
          if (0 <? fst (fw_wait s)) && fw_writable s then
            err <~ write_to_tty (fw_write s) ;;
            match err with
            | Some e => ret (Some e)
            | None => flush_loop rest
            end
          else flush_loop rest
        end
    end
  else ret None.

Definition flush (script : list FlushWake) : M error :=
  emit EvFlush ;;;
  l <~ get_loop ;;
  match controlling_term l with
  | None => ret None
  | Some _ => flush_loop script
  end.

(** ** Run *)

(** What the operating system answers during boot. *)
Record Boot := mkBoot {
  b_pipe : error;                 (* os.Pipe *)
  b_open_term : Term + Error;     (* tty.OpenControllingTerm *)
  b_set_raw : error               (* ApplyOperations(TCSANOW, SetRaw) *)
}.

(** One wake-up of the main loop. *)
Record Wake := mkWake {
  k_now : Time;                   (* time.Now() *)
  k_wait : Z * error;             (* selector.Wait / WaitForever *)
  k_tty_writable : bool;          (* IsReadyToWrite(tty_fd) *)
  k_write : bytes -> sysres;      (* unix.Write on the terminal *)
  k_tty_readable : bool;          (* IsReadyToRead(tty_fd) *)
  k_read : sysres;                (* unix.Read on the terminal *)
  k_data : bytes;                 (* what the read left in read_buf *)
  k_decoded : list Decoded;       (* what the decoder makes of it *)
  k_sig_readable : bool;          (* IsReadyToRead(signal pipe) *)
  k_sig_err : error;              (* reading the signal pipe *)
  k_signals : list Signal         (* the records read from it *)
}.

Record RunEnv := mkRunEnv {
  boot : Boot;
  wakes : list Wake;
  flush_first : list FlushWake;
  flush_final : list FlushWake
}.

(** Lines 396-407: drain the buffer and tell the application when it is empty. *)
Definition write_step (k_writable : bool) (sys_write : bytes -> sysres) : M ctl :=
  l <~ get_loop ;;
  if (0 <? len (write_buf l)) && k_writable then
    try write_to_tty sys_write ;;
    l' <~ get_loop ;;
    match OnWriteComplete l' with
    | Some f =>
      if len (write_buf l') =? 0
      then try call HWriteComplete (fn_write_complete P f) ;; ret Next
      else ret Next
    | None => ret Next
    end
  else ret Next.

(** Lines 408-426. *)
Definition read_step (k : Wake) : M ctl :=
  if k_tty_readable k then
    let '(num_read, err) := read_ignoring_temporary_errors (k_read k) in
    match err with
    | Some e => ret (Return (Some e))
    | None =>
      if 0 <? num_read then
        let data := take (Z.to_nat num_read) (k_data k) in
        l <~ get_loop ;;
        try (match OnReceivedData l with
             | Some f => call HReceivedData (fun s => fn_received_data P f s data)
             | None => ret None
             end) ;;
        try Parse (k_decoded k) ;;
        ret Next
      else ret Next
    end
  else ret Next.

(** Lines 427-433. *)
Definition signal_step (k : Wake) : M ctl :=
  if k_sig_readable k then
    try read_signals (k_sig_err k) (k_signals k) ;; ret Next
  else ret Next.

Definition seq_ctl (m : M ctl) (k : M ctl) : M ctl :=
  c <~ m ;;
  match c with
  | Next => k
  | Return e => ret (Return e)
  end.

(** Lines 376-392: the number of ready descriptors, or a return. The error
    of [selector.Wait] on the timer branch is not looked at. Indexing
    [self.timers[0]] panics on an empty slice, and so does reading the
    deadline through a nil entry. *)
Definition wait_step (k : Wake) : M (Z + error) :=
  l <~ get_loop ;;
  if 0 <? len (timers l) then
    err <~ dispatch_timers (k_now k) ;;
    match err with
    | Some e => ret (inr (Some e))
    | None =>
      l' <~ get_loop ;;
      match timers l' with
      | Some t :: _ => ret (inl (fst (k_wait k)))
      | _ => panic
      end
    end
  else
    match snd (k_wait k) with
    | Some e => ret (inr (Some (ErrSelect e)))
    | None => ret (inl (fst (k_wait k)))
    end.

(** The body of [for self.keep_going { ... }]. *)
Definition iteration (k : Wake) : M ctl :=
  r <~ wait_step k ;;
  match r with
  | inr e => ret (Return e)
  | inl num_ready =>
    if num_ready =? 0 then ret Next
    else
      seq_ctl (write_step (k_tty_writable k) (k_write k))
        (seq_ctl (read_step k) (signal_step k))
  end.

(** The loop takes one scripted wake-up per turn; when they are over and
    [keep_going] still holds, [Run] has not returned. *)
Fixpoint main_loop (ks : list Wake) : M error :=
  l <~ get_loop ;;
  if keep_going l then
    match ks with
    | [] => pending
    | k :: rest =>
      c <~ iteration k ;;
      match c with
      | Next => main_loop rest
      | Return e => ret e
      end
    end
  else ret None.

(** [defer d] in front of [body]: [d] runs when [body] returns and when it
    panics; a panic stays a panic. *)
Definition defer {A} (d : M unit) (body : M A) : M A := fun w =>
  match body w with
  | (Ret a, w') =>
    match d w' with
    | (Ret _, w'') => (Ret a, w'')
    | (Panic, w'') => (Panic, w'')
    | (Pending, w'') => (Pending, w'')
    end
  | (Panic, w') => (Panic, snd (d w'))
  | (Pending, w') => (Pending, w')
  end.

(** The deferred function of lines 328-331. *)
Definition restore_term : M unit :=
  l <~ get_loop ;;
  match controlling_term l with
  | None => panic
  | Some _ => emit EvRestore ;;; modify (with_controlling_term None)
  end.

(** The deferred function of lines 352-362. *)
Definition shutdown (finalizer : bytes) (first final : list FlushWake) : M unit :=
  l <~ get_loop ;;
  (if flush_write_buf l then flush first ;;; ret tt else ret tt) ;;;
  emit EvClear ;;;
  modify (fun l => with_write_buf (take 0 (write_buf l)) l) ;;;
  (if negb (len finalizer =? 0) then queue_write_to_tty finalizer else ret tt) ;;;
  l <~ get_loop ;;
  queue_write_to_tty (ResetStateEscapeCodes X (terminal_options l)) ;;;
  flush final ;;;
  ret tt.

(** The signal relay (pipe, [notify_signals], the relaying goroutine) acts on
    no loop state; what it delivers is in the wake-ups. *)
Definition Run (env : RunEnv) : M error :=
  match b_pipe (boot env) with
  | Some e => ret (Some e)
  | None =>
    match b_open_term (boot env) with
    | inr e => ret (Some e)
    | inl term =>
      modify (with_controlling_term (Some term)) ;;;
      defer restore_term
        (match b_set_raw (boot env) with
         | Some _ => ret None
         | None =>
           modify (with_keep_going true) ;;;
           modify (with_flush_write_buf true) ;;;
           l <~ get_loop ;;
           queue_write_to_tty (SetStateEscapeCodes X (terminal_options l)) ;;;
           l <~ get_loop ;;
           r <~ match OnInitialize l with
                | Some f => call HInitialize (fn_init P f)
                | None => ret ([], None)
                end ;;
           let '(finalizer, err) := r in
           match err with
           | Some e => ret (Some e)
           | None =>
             defer (shutdown finalizer (flush_first env) (flush_final env))
               (modify (with_death_signal SIGNULL) ;;;
                modify (with_exit_code 0) ;;;
                main_loop (wakes env))
           end
         end)
    end
  end.

End LoopCode.

(** ** Concrete collaborators for the examples *)

(** Modelled from the spec: [MatchesPressOrRepeat] is declared with
    [KeyEvent] in another file; a shortcut such as ctrl+c matches an event of
    kind press or repeat with that key and that modifier. *)
Definition CTRL : Z := 4.

Definition matches_press_or_repeat (ev : KeyEvent) (spec : string) : bool :=
  match Type_ ev with
  | RELEASE => false
  | PRESS | REPEAT =>
    (Mods ev =? CTRL) &&
    (if String.eqb spec "ctrl+c" then String.eqb (Key ev) "c"
     else if String.eqb spec "ctrl+z" then String.eqb (Key ev) "z"
     else false)
  end.

Definition demo_ext : Externals :=
  mkExternals (fun _ => inl (mkWinsize 24 80 800 480))
              (fun _ => [x1b; x5b]) (fun _ => [x1b; x63])
              matches_press_or_repeat (fun _ => None).

Definition no_init (f : FuncId) (l : Loop) : Loop * (bytes * error) := (l, ([], None)).
Definition no_key (f : FuncId) (l : Loop) (ev : KeyEvent) : Loop * (KeyEvent * error) :=
  (l, (ev, None)).
Definition no_text (f : FuncId) (l : Loop) (t : bytes) (a b : bool) : Loop * error := (l, None).
Definition no_resize (f : FuncId) (l : Loop) (a b : ScreenSize) : Loop * error := (l, None).
Definition no_hook (f : FuncId) (l : Loop) : Loop * error := (l, None).
Definition no_data (f : FuncId) (l : Loop) (d : bytes) : Loop * error := (l, None).
Definition no_timer (f : FuncId) (l : Loop) (t : TimerId) : Loop * error := (l, None).

(** A key callback that marks every event handled. *)
Definition key_swallow (f : FuncId) (l : Loop) (ev : KeyEvent) : Loop * (KeyEvent * error) :=
  (l, (set_Handled true ev, None)).

Definition quiet_program : Program :=
  mkProgram no_init no_key no_text no_resize no_hook no_data no_data no_timer.

Definition swallow_program : Program :=
  mkProgram no_init key_swallow no_text no_resize no_hook no_data no_data no_timer.

Definition ctrl_c : KeyEvent := mkKeyEvent PRESS CTRL "c" [x03] false.
Definition ctrl_z : KeyEvent := mkKeyEvent REPEAT CTRL "z" [x1a] false.

Definition with_OnKeyEvent (v : option FuncId) (l : Loop) : Loop :=
  let 'mkLoop a b c d e f g h i j k _ n o p q r := l in mkLoop a b c d e f g h i j k v n o p q r.
Definition with_OnText (v : option FuncId) (l : Loop) : Loop :=
  let 'mkLoop a b c d e f g h i j k m _ o p q r := l in mkLoop a b c d e f g h i j k m v o p q r.
Definition with_OnInitialize (v : option FuncId) (l : Loop) : Loop :=
  let 'mkLoop a b c d e f g h i j _ m n o p q r := l in mkLoop a b c d e f g h i j v m n o p q r.
Definition with_OnWriteComplete (v : option FuncId) (l : Loop) : Loop :=
  let 'mkLoop a b c d e f g h i j k m n o _ q r := l in mkLoop a b c d e f g h i j k m n o v q r.

(** A loop in the middle of [Run]: terminal attached, going. *)
Definition running_loop : Loop :=
  with_keep_going true (with_flush_write_buf true
    (with_controlling_term (Some (mkTerm 3)) CreateLoop)).

(** What the application's key callback leaves behind: the world, the event
    and the error; without a callback nothing changes. *)
Definition after_key_callback (P : Program) (ev : KeyEvent) (w : World)
    : World * KeyEvent * error :=
  match OnKeyEvent (loop w) with
  | Some f =>
    let '(l', (ev', err)) := fn_key P f (loop w) ev in
    (mkWorld l' (log w ++ [EvCall HKeyEvent]), ev', err)
  | None => (w, ev, None)
  end.

(** A write primitive that takes whatever it is handed, and one that takes
    at most [k] bytes per call. *)
Definition accept_all (buf : bytes) : sysres := (len buf, None).
Definition accept (k : Z) (buf : bytes) : sysres := (Z.min k (len buf), None).

Definition ready_to_write : FlushWake := mkFlushWake false (1, None) true accept_all.

(** An initialization callback that quits with code 7, and one that fails. *)
Definition init_quit7 (f : FuncId) (l : Loop) : Loop * (bytes * error) :=
  (Quit 7 l, ([], None)).
Definition init_fails (f : FuncId) (l : Loop) : Loop * (bytes * error) :=
  (l, ([], Some (ErrOther 1))).

Definition quit7_program : Program :=
  mkProgram init_quit7 no_key no_text no_resize no_hook no_data no_data no_timer.
Definition failing_init_program : Program :=
  mkProgram init_fails no_key no_text no_resize no_hook no_data no_data no_timer.

Definition good_boot : Boot := mkBoot None (inl (mkTerm 3)) None.

(** No wake-up at all; both flushes find the terminal writable. *)
Definition still_env : RunEnv := mkRunEnv good_boot [] [ready_to_write] [ready_to_write].

(** Two one-shot timers: the first is due at time 10, the second is not. *)
Definition timer_due : timer := mkTimer 5 1 false 1 0%nat.
Definition timer_later : timer := mkTimer 500 100 false 2 0%nat.

(** The steps of the shutdown sequence, as they show in the log when the
    loop is left in state [lx] with finalizer [fin]: the flush of what is
    pending unless [flush_write_buf] was cleared, the clearing of the buffer,
    the finalizer, the reset codes, the final flush, the terminal restore. *)
Definition shutdown_steps (X : Externals) (fin : bytes) (lx : Loop)
    (ws1 ws2 : list bytes) : list Event :=
  (if flush_write_buf lx then EvFlush :: (EvWrite <$> ws1) else []) ++
  [EvClear] ++
  (if len fin =? 0 then [] else [EvQueue fin]) ++
  [EvQueue (ResetStateEscapeCodes X (terminal_options lx)); EvFlush] ++
  (EvWrite <$> ws2) ++ [EvRestore].

Definition before_shutdown (e : Event) : Prop :=
  match e with
  | EvFlush | EvClear | EvRestore => False
  | _ => True
  end.

(** The events [added] by a call of [Run] end with the shutdown sequence and
    hold no step of it before. *)
Definition shutdown_ran_once (X : Externals) (fin : bytes) (lx : Loop)
    (added : list Event) : Prop :=
  exists pre ws1 ws2,
    added = pre ++ shutdown_steps X fin lx ws1 ws2 /\ Forall before_shutdown pre.

(** A use of the timer interface: an add (with what [time.Now()] answers
    inside it) or a remove. *)
Inductive TimerOp :=
| OpAdd (now : Time) (ival : Duration) (rep : bool) (cb : FuncId)
| OpRemove (tid : TimerId).

Definition run_op (op : TimerOp) : M (option TimerId) :=
  match op with
  | OpAdd now ival rep cb => tid <~ AddTimer now ival rep cb ;; ret (Some tid)
  | OpRemove tid => RemoveTimer tid ;;; ret None
  end.

(** The operations in order; after each one, the id it returned (for an add)
    and the collection as it stands. *)
Fixpoint run_ops (ops : list TimerOp) : M (list (option TimerId * list (option timer))) :=
  match ops with
  | [] => ret []
  | op :: rest =>
    r <~ run_op op ;;
    l <~ get_loop ;;
    tr <~ run_ops rest ;;
    ret ((r, timers l) :: tr)
  end.

Definition is_add (op : TimerOp) : bool :=
  match op with OpAdd _ _ _ _ => true | OpRemove _ => false end.

Definition adds (ops : list TimerOp) : Z := len (filter is_add ops).

Definition deadline_le (a b : timer) : Prop := deadline a <= deadline b.

(** No nil entry, deadlines ascending. *)
Definition sorted_by_deadline (ts : list (option timer)) : Prop :=
  exists us, ts = Some <$> us /\ StronglySorted deadline_le us.

(** [n] turns of the main loop in which the terminal is found writable, seen
    from the output buffer: lines 396-407, [n] times. *)
Fixpoint drain (P : Program) (n : nat) (sys_write : bytes -> sysres) : M ctl :=
  match n with
  | O => ret Next
  | S n' => seq_ctl (write_step P true sys_write) (drain P n' sys_write)
  end.

(** The first [n] pieces of [buf] when it is cut every [k] bytes. *)
Fixpoint chunks (n k : nat) (buf : bytes) : list bytes :=
  match n with
  | O => []
  | S n' => take k buf :: chunks n' k (drop k buf)
  end.

(** What is left once the write-complete callback has been entered on the
    loop [l], after the events [lg]. *)
Definition write_completed (P : Program) (f : FuncId) (l : Loop) (lg : list Event)
    : res ctl * World :=
  let '(l', err) := fn_write_complete P f l in
  (Ret (match err with Some e => Return (Some e) | None => Next end),
   mkWorld l' (lg ++ [EvCall HWriteComplete])).

(** What the loop phase adds to the log: callbacks entered and bytes written. *)
Definition loop_event (e : Event) : Prop :=
  match e with
  | EvCall _ | EvWrite _ => True
  | _ => False
  end.

(** The two fields no exported method touches: the terminal handle and the
    flag that [on_SIGHUP] clears. *)
Definition keeps_private (l l' : Loop) : Prop :=
  controlling_term l' = controlling_term l /\
  flush_write_buf l' = flush_write_buf l.

(** A program whose callbacks act on the loop through its exported methods. *)
Record api_program (P : Program) : Prop := mkApi {
  api_init : forall f l, keeps_private l (fn_init P f l).1;
  api_key : forall f l ev, keeps_private l (fn_key P f l ev).1;
  api_text : forall f l t a b, keeps_private l (fn_text P f l t a b).1;
  api_resize : forall f l a b, keeps_private l (fn_resize P f l a b).1;
  api_write_complete : forall f l, keeps_private l (fn_write_complete P f l).1;
  api_rc_response : forall f l d, keeps_private l (fn_rc_response P f l d).1;
  api_received_data : forall f l d, keeps_private l (fn_received_data P f l d).1;
  api_timer : forall f l t, keeps_private l (fn_timer P f l t).1
}.

(** A computation of the loop phase: it keeps the terminal handle, it keeps
    the flush flag unless [hup] allows otherwise, and it adds loop events
    only. *)
Definition steady (hup : bool) {A} (m : M A) : Prop :=
  forall w,
    controlling_term (loop (m w).2) = controlling_term (loop w) /\
    (hup = false -> flush_write_buf (loop (m w).2) = flush_write_buf (loop w)) /\
    exists ex, log (m w).2 = log w ++ ex /\ Forall loop_event ex.

Definition is_hup (s : Signal) : bool :=
  match s with SIGHUP => true | _ => false end.

Definition hup_in (k : Wake) : bool := existsb is_hup (k_signals k).

(** [unix.Write] never reports more bytes than it was handed. *)
Definition sane_write (f : bytes -> sysres) : Prop :=
  forall buf, fst (f buf) <= len buf.

(** The loop on which the initialization callback is entered: terminal
    attached, flags set, the enter codes queued. *)
Definition booted (X : Externals) (term : Term) (l : Loop) : Loop :=
  let l1 := with_flush_write_buf true
              (with_keep_going true (with_controlling_term (Some term) l)) in
  append_write_buf (SetStateEscapeCodes X (terminal_options l1)) l1.

(** What the initialization callback answers; without one, no finalizer and
    no error. *)
Definition init_outcome (P : Program) (l : Loop) : Loop * (bytes * error) :=
  match OnInitialize l with
  | Some f => fn_init P f l
  | None => (l, ([], None))
  end.

(** [w'] is [w] after some bytes went out: the buffer changed, writes were
    logged, nothing else. *)
Definition wrote (w w' : World) : Prop :=
  exists ws buf,
    w' = mkWorld (with_write_buf buf (loop w)) (log w ++ (EvWrite <$> ws)).

Definition sane_flush (s : FlushWake) : Prop := sane_write (fw_write s).

(** One wake-up: the signal pipe is readable and holds a SIGINT record. *)
Definition sigint_wake : Wake :=
  mkWake 0 (1, None) false accept_all false (0, None) [] [] true None [SIGINT].

Definition interrupted_env : RunEnv :=
  mkRunEnv good_boot [sigint_wake] [ready_to_write] [ready_to_write].

(** The bytes that reached the terminal, read off the log. *)
Definition tty_output (lg : list Event) : bytes :=
  flat_map (fun e => match e with EvWrite d => d | _ => [] end) lg.

(** From [w] to [w'] the bytes [out] left the head of the buffer for the
    terminal, and nothing else in the loop changed. *)
Definition sent (out : bytes) (w w' : World) : Prop :=
  exists rest,
    loop w' = with_write_buf rest (loop w) /\
    out ++ rest = write_buf (loop w) /\
    tty_output (log w') = tty_output (log w) ++ out.

(** A key event that is no shortcut: the letter a, pressed, with its text. *)
Definition key_a : KeyEvent := mkKeyEvent PRESS 0 "a" [x61] false.

(** A key callback that fails. *)
Definition key_fails (f : FuncId) (l : Loop) (ev : KeyEvent) : Loop * (KeyEvent * error) :=
  (l, (ev, Some (ErrOther 2))).

Definition failing_key_program : Program :=
  mkProgram no_init key_fails no_text no_resize no_hook no_data no_data no_timer.

Definition with_OnRCResponse (v : option FuncId) (l : Loop) : Loop :=
  let 'mkLoop a b c d e f g h i j k m n o p _ r := l in mkLoop a b c d e f g h i j k m n o p v r.

(** A repeating timer, due at time 10. *)
Definition timer_tick : timer := mkTimer 30 5 true 3 0%nat.

Definition is_due (now : Time) (u : timer) : bool := time_After now (deadline u).

(** What dispatch does to a repeating timer: when due, its deadline becomes
    now + interval. *)
Definition rearm (now : Time) (u : timer) : timer :=
  if is_due now u then update_deadline now u else u.

(** Timer callbacks that return nil and leave the timer collection alone. *)
Definition quiet_timers (P : Program) : Prop :=
  forall f l tid,
    timers (fn_timer P f l tid).1 = timers l /\ (fn_timer P f l tid).2 = None.

(** A timer callback that fails. *)
Definition timer_fails (f : FuncId) (l : Loop) (t : TimerId) : Loop * error :=
  (l, Some (ErrOther 3)).

Definition failing_timer_program : Program :=
  mkProgram no_init no_key no_text no_resize no_hook no_data no_data timer_fails.

(** A wake-up that finds the terminal readable, with what the read answers. *)
Definition read_wake (r : sysres) : Wake :=
  mkWake 0 (1, None) false accept_all true r [] [] false None [].

(** * Properties *)

(** ** Writing to the terminal *)

(** C8: a write that reports zero bytes and no error on a non-empty buffer
    comes out of [write_to_tty] as [io.EOF], with nothing written; a write
    that fails with EINTR, EAGAIN or EWOULDBLOCK comes out as no error and no
    progress. *)
Theorem write_zero_is_eof (sys_write : bytes -> sysres) (w : World) (t : Term) :
  controlling_term (loop w) = Some t ->
  write_buf (loop w) <> [] ->
  (sys_write (write_buf (loop w)) = (0, None) ->
     write_ignoring_temporary_errors (0, None) = (0, Some io_EOF) /\
     write_to_tty sys_write w = (Ret (Some io_EOF), w)) /\
  (forall n e, is_temporary e = true ->
     sys_write (write_buf (loop w)) = (n, Some e) ->
     write_ignoring_temporary_errors (n, Some e) = (0, None) /\
     write_to_tty sys_write w = (Ret None, w)).
Proof.
  intros Hterm Hbuf.
  assert (Hlen : (len (write_buf (loop w)) =? 0) = false).
  { apply Z.eqb_neq. unfold len. destruct (write_buf (loop w)); [done | simpl; lia]. }
  split.
  - intros Hw. split; [reflexivity |].
    unfold write_to_tty, bind, get_loop, ret. simpl.
    rewrite Hlen, Hterm, Hw. reflexivity.
  - intros n e He Hw. split.
    + unfold write_ignoring_temporary_errors. simpl. by rewrite He.
    + unfold write_to_tty, bind, get_loop, ret. simpl.
      rewrite Hlen, Hterm, Hw. unfold write_ignoring_temporary_errors. simpl.
      rewrite He. reflexivity.
Qed.

Lemma write_zero_is_eof_witness :
  let w := mkWorld (with_write_buf [x41; x42] running_loop) [] in
  write_to_tty (fun _ => (0, None)) w = (Ret (Some io_EOF), w) /\
  write_to_tty (fun _ => (-1, Some EAGAIN)) w = (Ret None, w).
Proof.
  intros w. split.
  - apply (write_zero_is_eof (fun _ => (0, None)) w (mkTerm 3)); done.
  - apply (write_zero_is_eof (fun _ => (-1, Some EAGAIN)) w (mkTerm 3)
             eq_refl ltac:(done)) with (n := -1) (e := EAGAIN); done.
Defined.

(** ** Screen size *)

(** C1 (the code departs from it): with a controlling terminal attached and a
    stale cached size, [update_screen_size] takes its first branch: it
    returns the "no controlling terminal" error and changes nothing, so
    [ScreenSize()] hands back the stale size with that error, and the WINCH
    handler returns the error without entering [OnResize]. *)
Theorem screen_size_with_terminal_fails (P : Program) (X : Externals) (t : Term)
    (l : Loop) (lg : list Event) :
  let w := mkWorld (with_screen_size (set_updated false (screen_size l))
                      (with_controlling_term (Some t) l)) lg in
  update_screen_size X w = (Ret (Some ErrNoControllingTerm), w) /\
  Loop_ScreenSize X w = (Ret (screen_size (loop w), Some ErrNoControllingTerm), w) /\
  updated (screen_size (loop w)) = false /\
  (OnResize l <> None ->
   on_SIGWINCH P X w = (Ret (Some ErrNoControllingTerm), w)).
Proof.
  destruct l. simpl. repeat split.
  intros Hres. unfold on_SIGWINCH, modify_size, bind, modify, get_loop. simpl.
  destruct OnResize0; [reflexivity | done].
Qed.

(** ** Key events *)

Section KeyEvents.

Variable P : Program.
Variable X : Externals.

(** C9: a ctrl+c event that the application's key callback marks handled
    leaves the loop as the callback left it, [keep_going] and the death
    signal included; left unhandled (or with no callback registered) the
    default binding runs: [keep_going] is cleared and the death signal is
    SIGINT. *)
Theorem ctrl_c_handled_or_interrupts (ev ev1 : KeyEvent) (w w1 : World) :
  MatchesPressOrRepeat X ev "ctrl+c" = true ->
  after_key_callback P ev w = (w1, ev1, None) ->
  (OnKeyEvent (loop w) <> None -> Handled ev1 = true ->
     handle_key_event P X ev w = (Ret (ev1, None), w1)) /\
  (OnKeyEvent (loop w) = None \/ Handled ev1 = false ->
     MatchesPressOrRepeat X ev1 "ctrl+c" = true ->
     exists w2,
       handle_key_event P X ev w = (Ret (set_Handled true ev1, None), w2) /\
       keep_going (loop w2) = false /\
       death_signal (loop w2) = SIGINT /\
       log w2 = log w1).
Proof.
  intros _ Hcb. unfold after_key_callback in Hcb. split.
  - intros Hsome Hh. unfold handle_key_event, bind, get_loop, call, ret. simpl.
    destruct (OnKeyEvent (loop w)) as [f|]; [| done].
    destruct (fn_key P f (loop w) ev) as [l' [ev' err]].
    injection Hcb as <- <- ->. simpl. by rewrite Hh.
  - intros Hun Hm. unfold handle_key_event, bind, get_loop, call, ret. simpl.
    destruct (OnKeyEvent (loop w)) as [f|].
    + destruct Hun as [? | Hh]; [done |].
      destruct (fn_key P f (loop w) ev) as [l' [ev' err]].
      injection Hcb as <- <- ->. simpl. rewrite Hh, Hm. simpl.
      eexists. split; [reflexivity |]. by destruct l'.
    + injection Hcb as <- <-. rewrite Hm. simpl.
      eexists. split; [reflexivity |]. by destruct (loop w).
Qed.

(** C10: a key event that the application callback did not mark handled and
    that matches ctrl+c or ctrl+z as press or repeat comes back with
    [Handled] set; what happens to the loop is the handler of SIGINT or of
    SIGTSTP, and nothing else: the log gains no entry after the key
    callback, so [OnText] is not entered, whatever text the event carries. *)
Theorem default_binding_skips_text (ev ev1 : KeyEvent) (w w1 : World) :
  after_key_callback P ev w = (w1, ev1, None) ->
  OnKeyEvent (loop w) = None \/ Handled ev1 = false ->
  MatchesPressOrRepeat X ev1 "ctrl+c" || MatchesPressOrRepeat X ev1 "ctrl+z" = true ->
  exists ev2 w2,
    handle_key_event P X ev w = (Ret (ev2, None), w2) /\
    ev2 = set_Handled true ev1 /\
    Handled ev2 = true /\
    (Ret None, w2) = (if MatchesPressOrRepeat X ev1 "ctrl+c"
                      then on_SIGINT w1 else on_SIGTSTP w1) /\
    log w2 = log w1 /\
    EvCall HText ∉ drop (length (log w)) (log w2).
Proof.
  intros Hcb Hun Hm.
  assert (Hlog : EvCall HText ∉ drop (length (log w)) (log w1)).
  { unfold after_key_callback in Hcb.
    destruct (OnKeyEvent (loop w)) as [f|].
    - destruct (fn_key P f (loop w) ev) as [l' [ev' err]].
      injection Hcb as <- <- ->. simpl.
      rewrite drop_app_length. by intros ?%list_elem_of_singleton.
    - injection Hcb as <- <-. rewrite drop_all. apply not_elem_of_nil. }
  assert (Hrun : handle_key_event P X ev w =
                 (if MatchesPressOrRepeat X ev1 "ctrl+c"
                  then bind on_SIGINT (fun err => ret (set_Handled true ev1, err)) w1
                  else bind on_SIGTSTP (fun err => ret (set_Handled true ev1, err)) w1)).
  { unfold after_key_callback in Hcb.
    unfold handle_key_event at 1. unfold bind at 1 2. unfold get_loop at 1. simpl.
    destruct (OnKeyEvent (loop w)) as [f|].
    - destruct Hun as [? | Hh]; [done |].
      unfold call, bind, ret.
      destruct (fn_key P f (loop w) ev) as [l' [ev' err]].
      injection Hcb as <- <- ->. simpl. rewrite Hh.
      destruct (MatchesPressOrRepeat X ev' "ctrl+c"); [reflexivity |].
      simpl in Hm. by rewrite Hm.
    - injection Hcb as <- <-. unfold ret.
      destruct (MatchesPressOrRepeat X ev "ctrl+c"); [reflexivity |].
      simpl in Hm. by rewrite Hm. }
  rewrite Hrun.
  destruct (MatchesPressOrRepeat X ev1 "ctrl+c").
  - eexists _, _. split; [reflexivity |].
    repeat split; try done.
  - eexists _, _. split; [reflexivity |].
    repeat split; try done.
Qed.

End KeyEvents.

Lemma ctrl_c_handled_or_interrupts_witness :
  let w := mkWorld (with_OnKeyEvent (Some 0%nat) running_loop) [] in
  handle_key_event swallow_program demo_ext ctrl_c w
    = (Ret (set_Handled true ctrl_c, None), mkWorld (loop w) [EvCall HKeyEvent]) /\
  exists w2,
    handle_key_event quiet_program demo_ext ctrl_c w
      = (Ret (set_Handled true ctrl_c, None), w2) /\
    keep_going (loop w2) = false /\ death_signal (loop w2) = SIGINT /\
    log w2 = [EvCall HKeyEvent].
Proof.
  intros w. split.
  - apply (ctrl_c_handled_or_interrupts swallow_program demo_ext ctrl_c
             (set_Handled true ctrl_c) w (mkWorld (loop w) [EvCall HKeyEvent])
             eq_refl eq_refl); done.
  - apply (ctrl_c_handled_or_interrupts quiet_program demo_ext ctrl_c ctrl_c w
             (mkWorld (loop w) [EvCall HKeyEvent]) eq_refl eq_refl).
    + by right.
    + reflexivity.
Defined.

Lemma default_binding_skips_text_witness :
  let w := mkWorld (with_OnText (Some 0%nat) (with_OnKeyEvent (Some 0%nat) running_loop)) [] in
  exists ev2 w2,
    handle_key_event quiet_program demo_ext ctrl_z w = (Ret (ev2, None), w2) /\
    ev2 = set_Handled true ctrl_z /\
    Handled ev2 = true /\
    (Ret None, w2) = on_SIGTSTP (mkWorld (loop w) [EvCall HKeyEvent]) /\
    log w2 = [EvCall HKeyEvent] /\
    EvCall HText ∉ drop 0 (log w2).
Proof.
  intros w.
  apply (default_binding_skips_text quiet_program demo_ext ctrl_z ctrl_z w
           (mkWorld (loop w) [EvCall HKeyEvent]) eq_refl).
  - by right.
  - reflexivity.
Defined.

(** ** Timers at dispatch *)

(** C4 (the code departs from it): of two one-shot timers the first is due.
    Its callback is entered once and the timer is gone afterwards, but the
    new slice is made with a length instead of a capacity: a nil entry
    stands in front of the timer that stays. *)
Theorem dispatch_leaves_nil_entry :
  let l := with_timers [Some timer_due; Some timer_later] running_loop in
  dispatch_timers quiet_program 10 (mkWorld l [])
    = (Ret None, mkWorld (with_timers [None; Some timer_later] l) [EvCall (HTimer 1)]) /\
  timers (with_timers [None; Some timer_later] l) <> [Some timer_later].
Proof.
  split; [vm_compute; reflexivity | discriminate].
Qed.

(** ** Run: boot *)

(** C5 (the code departs from it): a failure of the pipe or of the terminal
    is returned as it is and nothing runs; a failure of the switch to raw
    mode makes [Run] return nil: the terminal is released, no callback is
    entered, and the error is lost. *)
Theorem setup_failures (P : Program) (X : Externals) (w : World) (e : Error)
    (term : Term) (ks : list Wake) (f1 f2 : list FlushWake) :
  Run P X (mkRunEnv (mkBoot (Some e) (inl term) None) ks f1 f2) w = (Ret (Some e), w) /\
  Run P X (mkRunEnv (mkBoot None (inr e) None) ks f1 f2) w = (Ret (Some e), w) /\
  Run P X (mkRunEnv (mkBoot None (inl term) (Some e)) ks f1 f2) w
    = (Ret None, mkWorld (with_controlling_term None (loop w)) (log w ++ [EvRestore])).
Proof.
  repeat split. destruct w as [l lg]. destruct l. reflexivity.
Qed.

(** ** Run: quitting *)

(** Inside the loop [Quit] does what it says: at the next test of
    [keep_going] the loop is left with the exit code in place. *)
Lemma quit_stops_main_loop (P : Program) (X : Externals) (ks : list Wake)
    (l : Loop) (lg : list Event) (code : Z) :
  main_loop P X ks (mkWorld (Quit code l) lg) = (Ret None, mkWorld (Quit code l) lg) /\
  ExitCode (Quit code l) = code.
Proof. destruct ks, l; split; reflexivity. Qed.

(** C3 (the code departs from it): [Quit(7)] called by the initialization
    callback stops the loop before its first turn and the shutdown runs,
    but [Run] sets the exit code to 0 after the callback has returned:
    [ExitCode()] is 0. *)
Theorem quit_in_initialize_loses_exit_code :
  let w := mkWorld (with_OnInitialize (Some 0%nat) CreateLoop) [] in
  exists w',
    Run quit7_program demo_ext still_env w = (Ret None, w') /\
    ExitCode (loop w') = 0 /\
    keep_going (loop w') = false /\
    log w' = [EvQueue [x1b; x5b]; EvCall HInitialize;
              EvFlush; EvWrite [x1b; x5b]; EvClear;
              EvQueue [x1b; x63]; EvFlush; EvWrite [x1b; x63]; EvRestore].
Proof.
  eexists. split; [vm_compute; reflexivity |]. repeat split.
Qed.

(** ** Run: shutdown *)

(** C2, as stated, fails: when the initialization callback returns an error,
    [Run] returns it and releases the terminal, and no step of the shutdown
    sequence is taken. *)
Lemma init_error_skips_shutdown :
  let w := mkWorld (with_OnInitialize (Some 0%nat) CreateLoop) [] in
  exists w',
    Run failing_init_program demo_ext still_env w = (Ret (Some (ErrOther 1)), w') /\
    log w' = [EvQueue [x1b; x5b]; EvCall HInitialize; EvRestore] /\
    forall fin lx, ~ shutdown_ran_once demo_ext fin lx (log w').
Proof.
  eexists. split; [vm_compute; reflexivity |]. split; [reflexivity |].
  intros fin lx (pre & ws1 & ws2 & Heq & _).
  assert (Hin : EvClear ∈ pre ++ shutdown_steps demo_ext fin lx ws1 ws2).
  { unfold shutdown_steps. rewrite !elem_of_app. right. right. left. by left. }
  rewrite <- Heq in Hin. simpl in Hin.
  repeat (apply elem_of_cons in Hin as [Hin | Hin]; [discriminate |]).
  by apply not_elem_of_nil in Hin.
Qed.

(** ** The timer queue under add and remove *)

Lemma Forall_insert_by_deadline (Q : timer -> Prop) t us :
  Q t -> Forall Q us -> Forall Q (insert_by_deadline t us).
Proof.
  intros Ht. induction 1 as [| u us Hu Hus IH]; simpl.
  - by constructor.
  - destruct (time_Before (deadline u) (deadline t)); repeat constructor; done.
Qed.

Lemma insert_by_deadline_sorted t us :
  StronglySorted deadline_le us -> StronglySorted deadline_le (insert_by_deadline t us).
Proof.
  induction 1 as [| u us Hs IH Hall]; simpl.
  - repeat constructor.
  - destruct (time_Before (deadline u) (deadline t)) eqn:Hb.
    + constructor; [done |]. apply Forall_insert_by_deadline; [| done].
      unfold time_Before in Hb. apply Z.ltb_lt in Hb. unfold deadline_le. lia.
    + unfold time_Before in Hb. apply Z.ltb_ge in Hb.
      constructor; [by constructor |].
      constructor; [done |].
      eapply Forall_impl; [exact Hall |]. unfold deadline_le. simpl. lia.
Qed.

Lemma SliceStable_sorted us : StronglySorted deadline_le (SliceStable us).
Proof.
  induction us as [| u us IH]; simpl; [constructor |].
  by apply insert_by_deadline_sorted.
Qed.

Lemma deref_all_Some us : deref_all (Some <$> us) = Some us.
Proof.
  unfold deref_all. by apply mapM_fmap_Some.
Qed.

Lemma remove_scan_sublist tid us :
  exists found vs,
    remove_scan tid (Some <$> us) = Some (found, Some <$> vs) /\ sublist vs us.
Proof.
  induction us as [| u us (found & vs & Heq & Hsub)].
  - by exists false, [].
  - rewrite fmap_cons. cbn [remove_scan]. destruct (id u =? tid).
    + exists true, us. split; [done |]. by apply sublist_cons.
    + rewrite Heq. exists found, (u :: vs). split; [done |]. by apply sublist_skip.
Qed.

Lemma sublist_sorted (vs us : list timer) :
  sublist vs us -> StronglySorted deadline_le us -> StronglySorted deadline_le vs.
Proof.
  induction 1 as [| x vs us Hsub IH | x vs us Hsub IH]; intros Hs.
  - constructor.
  - apply StronglySorted_inv in Hs as [Hs Hall]. constructor; [by apply IH |].
    rewrite Forall_forall in Hall |- *. intros y Hy.
    apply Hall. by eapply elem_of_sublist.
  - apply StronglySorted_inv in Hs as [Hs _]. by apply IH.
Qed.

Lemma sort_timers_Some us (l : Loop) (lg : list Event) :
  timers l = Some <$> us ->
  sort_timers (mkWorld l lg)
    = (Ret tt, mkWorld (with_timers (Some <$> SliceStable us) l) lg).
Proof.
  intros Hus. unfold sort_timers, bind, get_loop, modify. cbn [loop log].
  by rewrite Hus, deref_all_Some.
Qed.

Lemma AddTimer_sorted now ival rep cb (w : World) :
  sorted_by_deadline (timers (loop w)) ->
  0 <= timer_id_counter (loop w) ->
  timer_id_counter (loop w) + 1 < uint_max ->
  exists w',
    AddTimer now ival rep cb w = (Ret (timer_id_counter (loop w) + 1), w') /\
    sorted_by_deadline (timers (loop w')) /\
    timer_id_counter (loop w') = timer_id_counter (loop w) + 1.
Proof.
  intros (us & Hus & Hs) H0 Hmax. destruct w as [l lg]. destruct l.
  cbn [loop log timers timer_id_counter] in *. subst.
  unfold AddTimer, bind, modify, get_loop, ret.
  cbn [loop log timers timer_id_counter with_timer_id_counter with_timers id
       update_deadline].
  unfold wrap64. rewrite Z.mod_small by lia.
  erewrite (sort_timers_Some (us ++ [_]));
    [| cbn [timers]; rewrite fmap_app; reflexivity].
  eexists. split; [reflexivity |]. cbn. split; [| done].
  eexists. split; [reflexivity |]. apply SliceStable_sorted.
Qed.

Lemma RemoveTimer_sorted tid (w : World) :
  sorted_by_deadline (timers (loop w)) ->
  exists found w',
    RemoveTimer tid w = (Ret found, w') /\
    sorted_by_deadline (timers (loop w')) /\
    timer_id_counter (loop w') = timer_id_counter (loop w).
Proof.
  intros (us & Hus & Hs). destruct w as [l lg]. destruct l.
  cbn [loop log timers timer_id_counter] in *. subst.
  unfold RemoveTimer, bind, modify, get_loop, ret. cbn [loop log timers].
  destruct (remove_scan_sublist tid us) as (found & vs & -> & Hsub).
  destruct found; simpl.
  - eexists _, _. split; [reflexivity |]. simpl. split; [| done].
    exists vs. split; [done |]. by eapply sublist_sorted.
  - eexists _, _. split; [reflexivity |]. simpl. split; [| done].
    by exists us.
Qed.

(** C7: along any sequence of [AddTimer] and [RemoveTimer] calls, as long as
    the 64-bit id counter does not wrap, no call panics, the collection is
    sorted by deadline (and free of nil entries) after every call, and the
    ids handed out by [AddTimer] are strictly increasing, hence distinct, and
    above every id handed out before. *)
Theorem timers_sorted_ids_increasing (ops : list TimerOp) (w : World) :
  sorted_by_deadline (timers (loop w)) ->
  0 <= timer_id_counter (loop w) ->
  timer_id_counter (loop w) + adds ops < uint_max ->
  exists tr w',
    run_ops ops w = (Ret tr, w') /\
    length tr = length ops /\
    Forall (fun s => sorted_by_deadline s.2) tr /\
    StronglySorted Z.lt (omap fst tr) /\
    Forall (fun i => timer_id_counter (loop w) < i) (omap fst tr).
Proof.
  revert w. induction ops as [| op ops IH]; intros w Hs H0 Hmax.
  - exists [], w. repeat split; constructor.
  - destruct op as [now ival rep cb | tid].
    + assert (Hadds : adds (OpAdd now ival rep cb :: ops) = adds ops + 1).
      { unfold adds, len. simpl. lia. }
      assert (0 <= adds ops) by (unfold adds, len; lia).
      destruct (AddTimer_sorted now ival rep cb w Hs H0 ltac:(lia)) as (w1 & Hrun & Hs1 & Hc1).
      destruct (IH w1 Hs1 ltac:(lia) ltac:(lia)) as (tr & w' & Hrest & Hlen & Hall & Hinc & Hgt).
      exists ((Some (timer_id_counter (loop w) + 1), timers (loop w1)) :: tr), w'.
      split.
      { simpl. unfold bind at 1. unfold run_op, bind at 1. rewrite Hrun. simpl.
        unfold bind, get_loop, ret. simpl. by rewrite Hrest. }
      split; [simpl; lia |]. split; [by constructor |]. simpl. split.
      * constructor; [done |]. eapply Forall_impl; [exact Hgt |]. simpl. lia.
      * constructor; [lia |]. eapply Forall_impl; [exact Hgt |]. simpl. lia.
    + assert (Hadds : adds (OpRemove tid :: ops) = adds ops) by done.
      destruct (RemoveTimer_sorted tid w Hs) as (found & w1 & Hrun & Hs1 & Hc1).
      destruct (IH w1 Hs1 ltac:(lia) ltac:(lia)) as (tr & w' & Hrest & Hlen & Hall & Hinc & Hgt).
      exists ((None, timers (loop w1)) :: tr), w'.
      split.
      { simpl. unfold bind at 1. unfold run_op, bind at 1. rewrite Hrun. simpl.
        unfold bind, get_loop, ret. simpl. by rewrite Hrest. }
      split; [simpl; lia |]. split; [by constructor |]. simpl. split; [done |].
      by rewrite <- Hc1.
Qed.

Lemma timers_sorted_ids_increasing_witness :
  exists tr w',
    run_ops [OpAdd 100 50 false 0%nat; OpAdd 101 10 true 1%nat; OpRemove 1;
             OpAdd 102 5 false 0%nat] (mkWorld CreateLoop []) = (Ret tr, w') /\
    length tr = 4%nat /\
    Forall (fun s => sorted_by_deadline s.2) tr /\
    StronglySorted Z.lt (omap fst tr) /\
    Forall (fun i => 0 < i) (omap fst tr).
Proof.
  apply (timers_sorted_ids_increasing
           [OpAdd 100 50 false 0%nat; OpAdd 101 10 true 1%nat; OpRemove 1;
            OpAdd 102 5 false 0%nat] (mkWorld CreateLoop [])).
  - exists []. split; [reflexivity | constructor].
  - simpl. lia.
  - vm_compute. reflexivity.
Defined.

(** ** Draining the output buffer *)

Lemma with_write_buf_id (l : Loop) : with_write_buf (write_buf l) l = l.
Proof. by destruct l. Qed.

Lemma with_write_buf_twice (a b : bytes) (l : Loop) :
  with_write_buf a (with_write_buf b l) = with_write_buf a l.
Proof. by destruct l. Qed.

Lemma len_drop (k : nat) (buf : bytes) :
  (k <= length buf)%nat -> len (drop k buf) = len buf - Z.of_nat k.
Proof. intros Hk. unfold len. rewrite length_drop. lia. Qed.

Section Drain.

Variable P : Program.
Variable k : Z.
Hypothesis k_pos : 0 < k.

Ltac step :=
  cbn beta iota zeta delta [andb orb negb loop log write_buf controlling_term
    OnWriteComplete with_write_buf from_option fst snd fmap option_fmap option_map].

(** One write under [accept k]: the first [min k len] bytes go out and the
    rest stays. *)
Lemma write_to_tty_accept (l : Loop) (lg : list Event) (t : Term) :
  controlling_term l = Some t ->
  0 < len (write_buf l) ->
  write_to_tty (accept k) (mkWorld l lg)
    = (Ret None,
       mkWorld (with_write_buf
                  (drop (Z.to_nat (Z.min k (len (write_buf l)))) (write_buf l)) l)
               (lg ++ [EvWrite (take (Z.to_nat (Z.min k (len (write_buf l))))
                                     (write_buf l))])).
Proof.
  intros Hterm Hlen.
  unfold write_to_tty, bind, get_loop. step.
  rewrite (proj2 (Z.eqb_neq _ _)) by lia.
  rewrite Hterm, bool_decide_eq_false_2 by done. step.
  unfold accept, write_ignoring_temporary_errors. step.
  rewrite (proj2 (Z.eqb_neq _ _)) by lia. step.
  rewrite (proj2 (Z.leb_gt _ _)) by lia.
  rewrite (proj2 (Z.ltb_ge _ _)) by lia.
  unfold emit, modify, ret. step.
  set (n := Z.to_nat (Z.min k (len (write_buf l)))).
  destruct (0 <? len (drop n (write_buf l))) eqn:Hrem; step.
  - reflexivity.
  - apply Z.ltb_ge in Hrem.
    assert (Hd : drop n (write_buf l) = []).
    { destruct (drop n (write_buf l)); [done | unfold len in Hrem; simpl in Hrem; lia]. }
    by rewrite Hd.
Qed.

(** A write that leaves something behind: the rest moves to the head of the
    buffer and the callback is not entered. *)
Lemma write_step_partial (l : Loop) (lg : list Event) (t : Term) :
  controlling_term l = Some t ->
  k < len (write_buf l) ->
  write_step P true (accept k) (mkWorld l lg)
    = (Ret Next,
       mkWorld (with_write_buf (drop (Z.to_nat k) (write_buf l)) l)
               (lg ++ [EvWrite (take (Z.to_nat k) (write_buf l))])).
Proof.
  intros Hterm Hk.
  assert (Hrem : len (drop (Z.to_nat k) (write_buf l)) = len (write_buf l) - k).
  { rewrite len_drop; unfold len in *; lia. }
  unfold write_step, check, bind, get_loop. step.
  rewrite (proj2 (Z.ltb_lt _ _)) by lia. step.
  rewrite (write_to_tty_accept l lg t Hterm) by lia.
  rewrite Z.min_l by lia. step.
  replace (OnWriteComplete (with_write_buf (drop (Z.to_nat k) (write_buf l)) l))
    with (OnWriteComplete l) by (by destruct l).
  replace (write_buf (with_write_buf (drop (Z.to_nat k) (write_buf l)) l))
    with (drop (Z.to_nat k) (write_buf l)) by (by destruct l).
  destruct (OnWriteComplete l); [| reflexivity].
  rewrite (proj2 (Z.eqb_neq _ _)) by lia. reflexivity.
Qed.

(** The write that empties the buffer: the callback is entered on the loop
    with the empty buffer. *)
Lemma write_step_last (l : Loop) (lg : list Event) (t : Term) (f : FuncId) :
  controlling_term l = Some t ->
  OnWriteComplete l = Some f ->
  0 < len (write_buf l) <= k ->
  write_step P true (accept k) (mkWorld l lg)
    = write_completed P f (with_write_buf [] l) (lg ++ [EvWrite (write_buf l)]).
Proof.
  intros Hterm Hf Hk.
  unfold write_step, check, bind, get_loop. step.
  rewrite (proj2 (Z.ltb_lt _ _)) by lia. step.
  rewrite (write_to_tty_accept l lg t Hterm) by lia.
  rewrite Z.min_r by lia.
  replace (Z.to_nat (len (write_buf l))) with (length (write_buf l))
    by (unfold len; lia).
  rewrite drop_all, firstn_all. step.
  replace (OnWriteComplete (with_write_buf [] l)) with (Some f) by (by destruct l).
  replace (write_buf (with_write_buf [] l)) with (@nil byte) by (by destruct l).
  change (len (@nil byte) =? 0) with true.
  unfold write_completed, call, ret. step.
  destruct (fn_write_complete P f _) as [l' [e |]]; reflexivity.
Qed.

Lemma drain_partial (m : nat) : forall (l : Loop) (lg : list Event) (t : Term),
  controlling_term l = Some t ->
  Z.of_nat m * k < len (write_buf l) ->
  drain P m (accept k) (mkWorld l lg)
    = (Ret Next,
       mkWorld (with_write_buf (drop (m * Z.to_nat k) (write_buf l)) l)
               (lg ++ (EvWrite <$> chunks m (Z.to_nat k) (write_buf l)))).
Proof.
  induction m as [| m IH]; intros l lg t Hterm Hlen.
  - unfold drain, ret. cbn [chunks Nat.mul].
    by rewrite drop_0, with_write_buf_id, fmap_nil, app_nil_r.
  - assert (Hk : k < len (write_buf l)) by nia.
    cbn [drain]. unfold seq_ctl, bind.
    rewrite (write_step_partial l lg t Hterm Hk).
    assert (Hterm1 : controlling_term
              (with_write_buf (drop (Z.to_nat k) (write_buf l)) l) = Some t)
      by (by destruct l).
    assert (Hbuf1 : write_buf (with_write_buf (drop (Z.to_nat k) (write_buf l)) l)
                    = drop (Z.to_nat k) (write_buf l)) by (by destruct l).
    rewrite (IH _ _ t Hterm1).
    + rewrite Hbuf1, with_write_buf_twice, drop_drop, <- app_assoc.
      replace (Z.to_nat k + m * Z.to_nat k)%nat with (S m * Z.to_nat k)%nat by lia.
      reflexivity.
    + rewrite Hbuf1, len_drop; unfold len in *; nia.
Qed.

Lemma drain_last (m : nat) : forall (l : Loop) (lg : list Event) (t : Term) (f : FuncId),
  controlling_term l = Some t ->
  OnWriteComplete l = Some f ->
  Z.of_nat m * k < len (write_buf l) <= (Z.of_nat m + 1) * k ->
  drain P (S m) (accept k) (mkWorld l lg)
    = write_completed P f (with_write_buf [] l)
        (lg ++ (EvWrite <$> chunks (S m) (Z.to_nat k) (write_buf l))).
Proof.
  induction m as [| m IH]; intros l lg t f Hterm Hf Hlen.
  - cbn [drain]. unfold seq_ctl, bind.
    rewrite (write_step_last l lg t f Hterm Hf) by lia.
    cbn [chunks fmap list_fmap]. rewrite take_ge by (unfold len in *; lia).
    unfold write_completed.
    destruct (fn_write_complete P f _) as [l' [e |]]; reflexivity.
  - assert (Hk : k < len (write_buf l)) by nia.
    change (drain P (S (S m)) (accept k))
      with (seq_ctl (write_step P true (accept k)) (drain P (S m) (accept k))).
    unfold seq_ctl, bind.
    rewrite (write_step_partial l lg t Hterm Hk).
    assert (Hterm1 : controlling_term
              (with_write_buf (drop (Z.to_nat k) (write_buf l)) l) = Some t)
      by (by destruct l).
    assert (Hf1 : OnWriteComplete
              (with_write_buf (drop (Z.to_nat k) (write_buf l)) l) = Some f)
      by (by destruct l).
    assert (Hbuf1 : write_buf (with_write_buf (drop (Z.to_nat k) (write_buf l)) l)
                    = drop (Z.to_nat k) (write_buf l)) by (by destruct l).
    rewrite (IH _ _ t f Hterm1 Hf1).
    + rewrite Hbuf1, with_write_buf_twice, <- app_assoc. reflexivity.
    + rewrite Hbuf1, len_drop; unfold len in *; nia.
Qed.

End Drain.

Lemma concat_chunks (n k : nat) : forall buf : bytes,
  (length buf <= n * k)%nat -> concat (chunks n k buf) = buf.
Proof.
  induction n as [| n IH]; intros buf Hlen.
  - destruct buf; [done | simpl in Hlen; lia].
  - cbn [chunks concat]. rewrite IH; [apply take_drop |].
    rewrite length_drop. lia.
Qed.

Lemma length_chunks (n k : nat) (buf : bytes) : length (chunks n k buf) = n.
Proof. revert buf. induction n as [| n IH]; intros buf; simpl; [done | by rewrite IH]. Qed.

(** C6: a buffer of N bytes, a write primitive that takes [k] bytes per call
    with 0 < k < N, the terminal writable at every turn. With n = ceil(N/k):
    after any m < n turns the buffer holds the unwritten rest, moved to its
    head, it is not empty and the callback has not been entered; the n-th
    turn empties the buffer and enters [OnWriteComplete] once, on the loop
    with the empty buffer. The writes are n in number and their pieces, in
    order, make up the N bytes. *)
Theorem drain_writes_all (P : Program) (k : Z) (t : Term) (f : FuncId) (w : World) :
  controlling_term (loop w) = Some t ->
  OnWriteComplete (loop w) = Some f ->
  0 < k < len (write_buf (loop w)) ->
  let buf := write_buf (loop w) in
  let n := Z.to_nat ((len buf + k - 1) / k) in
  let pieces := chunks n (Z.to_nat k) buf in
  (forall m, (m < n)%nat ->
     drain P m (accept k) w
       = (Ret Next,
          mkWorld (with_write_buf (drop (m * Z.to_nat k) buf) (loop w))
                  (log w ++ (EvWrite <$> chunks m (Z.to_nat k) buf))) /\
     drop (m * Z.to_nat k) buf <> []) /\
  drain P n (accept k) w
    = write_completed P f (with_write_buf [] (loop w)) (log w ++ (EvWrite <$> pieces)) /\
  length pieces = n /\
  concat pieces = buf.
Proof.
  intros Hterm Hf [Hk HkN] buf n pieces.
  set (q := (len buf + k - 1) / k) in *.
  assert (Hq1 : k * q <= len buf + k - 1) by (apply Z.mul_div_le; lia).
  assert (Hq2 : len buf + k - 1 < k * Z.succ q) by (apply Z.mul_succ_div_gt; lia).
  assert (HN : k < len buf) by exact HkN.
  assert (Hq : 1 <= q).
  { destruct (Z.le_gt_cases 1 q) as [? | Hlt]; [done | exfalso].
    assert (k * Z.succ q <= k * 1) by (apply Z.mul_le_mono_nonneg_l; lia). lia. }
  destruct w as [l lg]. cbn [loop log] in *.
  repeat split.
  - eapply drain_partial; [done | done |]. fold buf. nia.
  - intros Hnil. apply (f_equal length) in Hnil. rewrite length_drop in Hnil.
    simpl in Hnil. unfold len in *. nia.
  - assert (Hn : n = S (Z.to_nat (q - 1))) by (unfold n; lia).
    unfold pieces. rewrite Hn. eapply drain_last; [done | done | done |].
    fold buf. rewrite Z2Nat.id by lia. lia.
  - apply length_chunks.
  - apply concat_chunks. unfold len in *. nia.
Qed.

Lemma drain_writes_all_witness :
  let w := mkWorld (with_OnWriteComplete (Some 0%nat)
                      (with_write_buf [x61; x62; x63; x64; x65] running_loop)) [] in
  drain quiet_program 3 (accept 2) w
    = write_completed quiet_program 0%nat (with_write_buf [] (loop w))
        [EvWrite [x61; x62]; EvWrite [x63; x64]; EvWrite [x65]] /\
  drain quiet_program 2 (accept 2) w
    = (Ret Next, mkWorld (with_write_buf [x65] (loop w))
                         [EvWrite [x61; x62]; EvWrite [x63; x64]]).
Proof.
  intros w.
  pose proof (drain_writes_all quiet_program 2 (mkTerm 3) 0%nat w
                eq_refl eq_refl ltac:(vm_compute; split; reflexivity)) as H.
  cbv zeta in H. destruct H as (Hpart & Hall & _ & _).
  split; [exact Hall |].
  exact (proj1 (Hpart 2%nat ltac:(vm_compute; lia))).
Defined.

(** ** The loop phase keeps the terminal and logs loop events only *)

Lemma steady_ret hup {A} (a : A) : steady hup (ret a).
Proof. intros w. simpl. repeat split. exists []. by rewrite app_nil_r. Qed.

Lemma steady_panic hup {A} : steady hup (@panic A).
Proof. intros w. simpl. repeat split. exists []. by rewrite app_nil_r. Qed.

Lemma steady_pending hup {A} : steady hup (@pending A).
Proof. intros w. simpl. repeat split. exists []. by rewrite app_nil_r. Qed.

Lemma steady_get_loop hup : steady hup get_loop.
Proof. intros w. simpl. repeat split. exists []. by rewrite app_nil_r. Qed.

Lemma steady_bind hup {A B} (m : M A) (k : A -> M B) :
  steady hup m -> (forall a, steady hup (k a)) -> steady hup (bind m k).
Proof.
  intros Hm Hk w. specialize (Hm w). unfold bind.
  destruct (m w) as [[a | |] w1]; simpl in *; [| done | done].
  destruct Hm as (Ht & Hf & ex & Hlog & Hex).
  destruct (Hk a w1) as (Ht' & Hf' & ex' & Hlog' & Hex').
  split; [congruence |]. split.
  - intros Hh. rewrite Hf', Hf; done.
  - exists (ex ++ ex'). rewrite Hlog', Hlog, app_assoc. split; [done |].
    by apply Forall_app.
Qed.

Lemma steady_mono hup {A} (m : M A) : steady false m -> steady hup m.
Proof.
  intros Hm w. destruct (Hm w) as (Ht & Hf & Hex). repeat split; [done | | done].
  intros _. by apply Hf.
Qed.

Lemma steady_modify hup (f : Loop -> Loop) :
  (forall l, keeps_private l (f l)) -> steady hup (modify f).
Proof.
  intros Hf w. destruct (Hf (loop w)) as [Ht Hfl]. simpl. repeat split; [done .. |].
  exists []. by rewrite app_nil_r.
Qed.

Lemma steady_emit hup (e : Event) : loop_event e -> steady hup (emit e).
Proof.
  intros He w. simpl. repeat split. exists [e]. split; [done |]. by constructor.
Qed.

Lemma steady_call hup {A} (h : Hook) (f : Loop -> Loop * A) :
  (forall l, keeps_private l (f l).1) -> steady hup (call h f).
Proof.
  intros Hf w. unfold call. specialize (Hf (loop w)).
  destruct (f (loop w)) as [l' a]. destruct Hf as [Ht Hfl]. simpl in *.
  repeat split; [done .. |]. exists [EvCall h]. split; [done |]. by constructor.
Qed.

Lemma steady_check hup (m : M error) (k : M ctl) :
  steady hup m -> steady hup k -> steady hup (check m k).
Proof.
  intros Hm Hk. apply steady_bind; [done |]. intros [e |]; [apply steady_ret | done].
Qed.

Lemma steady_seq_ctl hup (m k : M ctl) :
  steady hup m -> steady hup k -> steady hup (seq_ctl m k).
Proof.
  intros Hm Hk. apply steady_bind; [done |]. intros [| e]; [done | apply steady_ret].
Qed.

Lemma keeps_private_refl l : keeps_private l l.
Proof. by split. Qed.

Create HintDb steady.

#[local] Hint Resolve steady_ret steady_panic steady_pending steady_get_loop
  steady_emit keeps_private_refl : steady.
#[local] Hint Extern 1 (loop_event _) => exact I : steady.
#[local] Hint Extern 1 (keeps_private ?l _) => (destruct l; split; reflexivity) : steady.

(** Follow the shape of the code: binds, early returns, branches. *)
Ltac steady_go :=
  repeat first
    [ progress auto with steady
    | apply steady_bind; [| intros ?]
    | apply steady_check
    | apply steady_seq_ctl
    | apply steady_modify; intros ?
    | apply steady_call; intros ?
    | match goal with
      | |- steady _ (match ?x with _ => _ end) => destruct x
      end ].

Lemma steady_write_to_tty hup f : steady hup (write_to_tty f).
Proof. unfold write_to_tty. steady_go. Qed.

Section Steady.

Variable P : Program.
Variable X : Externals.
Hypothesis api : api_program P.

#[local] Hint Resolve api_init api_key api_text api_resize api_write_complete
  api_rc_response api_received_data api_timer : steady.

Lemma steady_update_screen_size hup : steady hup (update_screen_size X).
Proof. unfold update_screen_size, term_GetSize, udiv, modify_size. steady_go. Qed.

Lemma steady_on_SIGINT hup : steady hup on_SIGINT.
Proof. unfold on_SIGINT. steady_go. Qed.

Lemma steady_on_SIGTERM hup : steady hup on_SIGTERM.
Proof. unfold on_SIGTERM. steady_go. Qed.

Lemma steady_on_SIGWINCH hup : steady hup (on_SIGWINCH P X).
Proof.
  unfold on_SIGWINCH, modify_size. pose proof (steady_update_screen_size hup).
  steady_go.
Qed.

Lemma steady_on_SIGHUP : steady true on_SIGHUP.
Proof.
  intros w. destruct w as [l lg]. destruct l. simpl. repeat split; [done |].
  exists []. by rewrite app_nil_r.
Qed.

Lemma steady_handle_key_event hup ev : steady hup (handle_key_event P X ev).
Proof.
  unfold handle_key_event, on_SIGTSTP.
  pose proof (steady_on_SIGINT hup). steady_go.
Qed.

Lemma steady_handle_decoded hup d : steady hup (handle_decoded P X d).
Proof.
  pose proof (steady_handle_key_event hup).
  destruct d; unfold handle_decoded, handle_csi, handle_osc, handle_dcs,
    handle_apc, handle_sos, handle_pm, handle_rune; steady_go.
Qed.

Lemma steady_Parse hup items : steady hup (Parse P X items).
Proof.
  pose proof (steady_handle_decoded hup).
  induction items as [| d items IH]; simpl; steady_go.
Qed.

Lemma steady_on_signal s : steady (is_hup s) (on_signal P X s).
Proof.
  destruct s; simpl; unfold on_SIGPIPE, on_SIGTSTP;
    auto using steady_on_SIGINT, steady_on_SIGTERM, steady_on_SIGWINCH,
      steady_on_SIGHUP with steady.
Qed.

Lemma steady_true {A} (m : M A) hup : steady hup m -> steady true m.
Proof.
  intros Hm w. destruct (Hm w) as (Ht & _ & Hex). repeat split; done.
Qed.

Lemma steady_dispatch_signals sigs :
  steady (existsb is_hup sigs) (dispatch_signals P X sigs).
Proof.
  induction sigs as [| s sigs IH]; simpl; [steady_go |].
  pose proof (steady_on_signal s) as Hs.
  destruct (is_hup s); simpl.
  - apply steady_bind; [done |]. intros [e |]; [steady_go |].
    by eapply steady_true.
  - apply steady_bind; [by apply steady_mono |]. intros [e |]; [steady_go | done].
Qed.

Lemma steady_read_signals err sigs :
  steady (existsb is_hup sigs) (read_signals P X err sigs).
Proof.
  unfold read_signals. destruct err; [steady_go |]. apply steady_dispatch_signals.
Qed.

Lemma steady_sort_timers hup : steady hup sort_timers.
Proof. unfold sort_timers. steady_go. Qed.

Lemma steady_dispatch_scan hup now ts : forall i upd remove,
  steady hup (dispatch_scan P now i ts upd remove).
Proof.
  induction ts as [| [t |] ts IH]; intros i upd remove; simpl; steady_go.
Qed.

Lemma steady_keep_scan hup remove ts : forall acc,
  steady hup (keep_scan remove ts acc).
Proof.
  induction ts as [| [t |] ts IH]; intros acc; simpl; steady_go.
Qed.

Lemma steady_dispatch_timers hup now : steady hup (dispatch_timers P now).
Proof.
  pose proof (steady_sort_timers hup). pose proof (steady_dispatch_scan hup now).
  pose proof (steady_keep_scan hup).
  unfold dispatch_timers, make_timers. steady_go.
Qed.

Lemma steady_write_step hup b f : steady hup (write_step P b f).
Proof.
  pose proof (steady_write_to_tty hup f). unfold write_step. steady_go.
Qed.

Lemma steady_read_step hup k : steady hup (read_step P X k).
Proof.
  pose proof (steady_Parse hup (k_decoded k)). unfold read_step. steady_go.
Qed.

Lemma steady_signal_step k : steady (hup_in k) (signal_step P X k).
Proof.
  pose proof (steady_read_signals (k_sig_err k) (k_signals k)).
  unfold signal_step, hup_in. steady_go.
Qed.

Lemma steady_wait_step hup k : steady hup (wait_step P k).
Proof.
  pose proof (steady_dispatch_timers hup (k_now k)). unfold wait_step. steady_go.
Qed.

Lemma steady_iteration k : steady (hup_in k) (iteration P X k).
Proof.
  pose proof (steady_wait_step (hup_in k) k).
  pose proof (steady_write_step (hup_in k) (k_tty_writable k) (k_write k)).
  pose proof (steady_read_step (hup_in k) k).
  pose proof (steady_signal_step k).
  unfold iteration. steady_go.
Qed.

Lemma steady_main_loop ks : steady (existsb hup_in ks) (main_loop P X ks).
Proof.
  induction ks as [| k ks IH]; simpl; [steady_go |].
  pose proof (steady_iteration k) as Hk.
  apply steady_bind; [steady_go |]. intros l. destruct (keep_going l); [| steady_go].
  destruct (hup_in k); simpl.
  - apply steady_bind; [done |]. intros [| e]; [by eapply steady_true | steady_go].
  - apply steady_bind; [by apply steady_mono |]. intros [| e]; [done | steady_go].
Qed.

End Steady.

(** ** What the shutdown sequence logs *)

Lemma wrote_refl w : wrote w w.
Proof.
  exists [], (write_buf (loop w)). destruct w as [l lg]. simpl.
  by rewrite with_write_buf_id, app_nil_r.
Qed.

Lemma wrote_trans w1 w2 w3 : wrote w1 w2 -> wrote w2 w3 -> wrote w1 w3.
Proof.
  intros (ws & buf & ->) (ws' & buf' & ->). exists (ws ++ ws'), buf'. simpl.
  by rewrite with_write_buf_twice, fmap_app, app_assoc.
Qed.

Lemma wrote_one (l : Loop) (lg : list Event) (buf data : bytes) :
  wrote (mkWorld l lg) (mkWorld (with_write_buf buf l) (lg ++ [EvWrite data])).
Proof. by exists [data], buf. Qed.

Lemma write_to_tty_wrote (f : bytes -> sysres) (w : World) :
  sane_write f ->
  exists e w', write_to_tty f w = (Ret e, w') /\ wrote w w'.
Proof.
  intros Hsane. destruct w as [l lg].
  unfold write_to_tty, bind, get_loop. cbn [loop].
  destruct ((len (write_buf l) =? 0) || bool_decide (controlling_term l = None)).
  { eexists _, _. split; [reflexivity | apply wrote_refl]. }
  specialize (Hsane (write_buf l)). unfold write_ignoring_temporary_errors.
  destruct (f (write_buf l)) as [n err]. cbn [fst] in Hsane.
  destruct (from_option is_temporary false err).
  { cbn. eexists _, _. split; [reflexivity | apply wrote_refl]. }
  destruct (n =? 0).
  { eexists _, _. split; [reflexivity | apply wrote_refl]. }
  destruct err as [e |]; cbn [fmap option_fmap option_map].
  { eexists _, _. split; [reflexivity | apply wrote_refl]. }
  destruct (n <=? 0).
  { eexists _, _. split; [reflexivity | apply wrote_refl]. }
  rewrite (proj2 (Z.ltb_ge _ _)) by lia.
  unfold emit, modify, ret. cbn [loop log].
  destruct (0 <? len (drop (Z.to_nat n) (write_buf l))); cbn [loop log];
    eexists _, _; (split; [reflexivity | apply wrote_one]).
Qed.

Lemma flush_loop_wrote (script : list FlushWake) :
  Forall sane_flush script ->
  forall w, exists e w', flush_loop script w = (Ret e, w') /\ wrote w w'.
Proof.
  induction 1 as [| s script Hs Hrest IH]; intros w.
  - cbn [flush_loop]. unfold bind, get_loop, ret.
    destruct (0 <? len (write_buf (loop w)));
      eexists _, _; (split; [reflexivity | apply wrote_refl]).
  - cbn [flush_loop]. unfold bind at 1, get_loop at 1.
    destruct (0 <? len (write_buf (loop w)));
      [| eexists _, _; split; [reflexivity | apply wrote_refl]].
    destruct (fw_expired s);
      [eexists _, _; split; [reflexivity | apply wrote_refl] |].
    destruct (fw_wait s).2;
      [eexists _, _; split; [reflexivity | apply wrote_refl] |].
    destruct ((0 <? (fw_wait s).1) && fw_writable s); [| apply IH].
    destruct (write_to_tty_wrote (fw_write s) w Hs) as (e & w1 & Hw & Hwr).
    unfold bind. rewrite Hw. destruct e as [e |].
    + eexists _, _. split; [reflexivity | done].
    + destruct (IH w1) as (e' & w2 & Hf & Hwr'). rewrite Hf.
      eexists _, _. split; [reflexivity |]. by eapply wrote_trans.
Qed.

Lemma flush_wrote (script : list FlushWake) (l : Loop) (lg : list Event) (t : Term) :
  controlling_term l = Some t ->
  Forall sane_flush script ->
  exists e w',
    flush script (mkWorld l lg) = (Ret e, w') /\
    wrote (mkWorld l (lg ++ [EvFlush])) w'.
Proof.
  intros Hterm Hsane. unfold flush, bind, emit, get_loop. cbn [loop log].
  rewrite Hterm. by apply flush_loop_wrote.
Qed.

(** The deferred shutdown on a loop with its terminal: it returns, and the
    log gains its steps in order. *)
Lemma shutdown_wrote (X : Externals) (fin : bytes) (f1 f2 : list FlushWake)
    (l : Loop) (lg : list Event) (t : Term) :
  controlling_term l = Some t ->
  Forall sane_flush f1 -> Forall sane_flush f2 ->
  exists ws1 ws2 buf,
    shutdown X fin f1 f2 (mkWorld l lg)
      = (Ret tt,
         mkWorld (with_write_buf buf l)
           (lg ++ (if flush_write_buf l then EvFlush :: (EvWrite <$> ws1) else []) ++
            [EvClear] ++ (if len fin =? 0 then [] else [EvQueue fin]) ++
            [EvQueue (ResetStateEscapeCodes X (terminal_options l)); EvFlush] ++
            (EvWrite <$> ws2))).
Proof.
  intros Hterm Hs1 Hs2.
  assert (Hfirst : exists ws1 buf1,
    (if flush_write_buf l then flush f1 ;;; ret tt else ret tt) (mkWorld l lg)
      = (Ret tt, mkWorld (with_write_buf buf1 l)
                   (lg ++ (if flush_write_buf l
                           then EvFlush :: (EvWrite <$> ws1) else [])))).
  { destruct (flush_write_buf l).
    - destruct (flush_wrote f1 l lg t Hterm Hs1) as (e & w1 & Hf & ws1 & buf1 & ->).
      exists ws1, buf1. unfold bind. rewrite Hf. cbn [loop log ret].
      by rewrite <- app_assoc.
    - exists [], (write_buf l). unfold ret.
      by rewrite with_write_buf_id, app_nil_r. }
  destruct Hfirst as (ws1 & buf1 & Hfirst).
  set (lg1 := lg ++ (if flush_write_buf l then EvFlush :: (EvWrite <$> ws1) else [])) in *.
  set (codes := ResetStateEscapeCodes X (terminal_options l)).
  set (l2 := append_write_buf codes
               (if len fin =? 0 then with_write_buf [] l
                else append_write_buf fin (with_write_buf [] l))).
  set (lg2 := lg1 ++ [EvClear] ++ (if len fin =? 0 then [] else [EvQueue fin]) ++
              [EvQueue codes]).
  assert (Hterm2 : controlling_term l2 = Some t).
  { unfold l2. destruct (len fin =? 0); by destruct l. }
  destruct (flush_wrote f2 l2 lg2 t Hterm2 Hs2) as (e & w2 & Hf & ws2 & buf2 & ->).
  cbn [loop log] in Hf.
  exists ws1, ws2, buf2.
  unfold shutdown. unfold bind at 1, get_loop at 1. cbn [loop].
  unfold bind at 1. rewrite Hfirst.
  unfold bind at 1, emit at 1. cbn [loop log].
  unfold bind at 1, modify at 1. cbn [loop log].
  rewrite with_write_buf_twice, take_0.
  assert (Hmid :
    (if negb (len fin =? 0) then queue_write_to_tty fin else ret tt)
      (mkWorld (with_write_buf [] l) (lg1 ++ [EvClear]))
    = (Ret tt,
       mkWorld (if len fin =? 0 then with_write_buf [] l
                else append_write_buf fin (with_write_buf [] l))
         (lg1 ++ [EvClear] ++ (if len fin =? 0 then [] else [EvQueue fin])))).
  { destruct (len fin =? 0); cbn [negb].
    - unfold ret. by rewrite app_nil_r.
    - unfold queue_write_to_tty, bind, emit, modify. cbn [loop log].
      by rewrite <- app_assoc. }
  unfold bind at 1. rewrite Hmid.
  unfold bind at 1, get_loop at 1. cbn [loop].
  replace (terminal_options (if len fin =? 0 then with_write_buf [] l
                             else append_write_buf fin (with_write_buf [] l)))
    with (terminal_options l) by (destruct (len fin =? 0); by destruct l).
  fold codes.
  unfold bind at 1, queue_write_to_tty, bind at 1, emit, modify. cbn [loop log].
  fold l2.
  replace ((lg1 ++ [EvClear] ++ (if len fin =? 0 then [] else [EvQueue fin])) ++
           [EvQueue codes]) with lg2
    by (unfold lg2; by rewrite <- !app_assoc).
  unfold bind. rewrite Hf. unfold ret. f_equal. f_equal.
  - unfold l2. destruct (len fin =? 0); by destruct l.
  - unfold lg2, lg1. rewrite <- !app_assoc. reflexivity.
Qed.

(** ** Run: the shutdown sequence *)

Lemma defer_exit {A} (d : M unit) (body : M A) (w : World) r w' :
  defer d body w = (r, w') -> r <> Pending ->
  (body w).1 <> Pending /\ w' = (d (body w).2).2.
Proof.
  unfold defer. destruct (body w) as [[a | |] wb]; simpl.
  - destruct (d wb) as [[u | |] wd]; intros [= <- <-]; done.
  - intros [= <- <-]; done.
  - intros [= <- <-]; done.
Qed.

Lemma defer_bind_ret {A B} (d : M unit) (m : M A) (k : A -> M B) (w w1 : World) a :
  m w = (Ret a, w1) -> defer d (bind m k) w = defer d (k a) w1.
Proof. intros Hm. unfold defer, bind. by rewrite Hm. Qed.

(** Once boot is through and the initialization callback has answered
    without error, what is left of [Run] is the main loop under its two
    deferred functions. *)
Lemma Run_after_boot (P : Program) (X : Externals) (env : RunEnv) (w : World)
    (term : Term) (l1 : Loop) (fin : bytes) :
  b_pipe (boot env) = None ->
  b_open_term (boot env) = inl term ->
  b_set_raw (boot env) = None ->
  init_outcome P (booted X term (loop w)) = (l1, (fin, None)) ->
  exists pre,
    Forall before_shutdown pre /\
    Run P X env w
      = defer restore_term
          (defer (shutdown X fin (flush_first env) (flush_final env))
             (modify (with_death_signal SIGNULL) ;;;
              modify (with_exit_code 0) ;;;
              main_loop P X (wakes env)))
          (mkWorld l1 (log w ++ pre)).
Proof.
  intros Hpipe Hopen Hraw Hinit. unfold Run. rewrite Hpipe, Hopen, Hraw.
  unfold init_outcome, booted in Hinit.
  destruct w as [l lg]. cbn [loop log] in *.
  unfold bind at 1, modify at 1. cbn [loop log].
  do 2 (erewrite defer_bind_ret; [| reflexivity]; cbn [loop log]).
  set (l0 := with_flush_write_buf true
               (with_keep_going true (with_controlling_term (Some term) l))) in *.
  do 3 (erewrite defer_bind_ret; [| reflexivity]; cbn [loop log]).
  set (codes := SetStateEscapeCodes X (terminal_options l0)) in *.
  destruct (OnInitialize (append_write_buf codes l0)) as [f |].
  - exists [EvQueue codes; EvCall HInitialize]. split; [by repeat constructor |].
    erewrite defer_bind_ret; [| unfold call; cbn [loop log]; rewrite Hinit; reflexivity].
    by rewrite <- app_assoc.
  - injection Hinit as <- <-.
    exists [EvQueue codes]. split; [by repeat constructor |].
    erewrite defer_bind_ret; [| reflexivity]. reflexivity.
Qed.

Lemma loop_event_before_shutdown (e : Event) : loop_event e -> before_shutdown e.
Proof. by destruct e. Qed.

Lemma init_outcome_private (P : Program) (l l1 : Loop) (out : bytes * error) :
  api_program P -> init_outcome P l = (l1, out) -> keeps_private l l1.
Proof.
  intros Hapi. unfold init_outcome. destruct (OnInitialize l) as [f |].
  - intros Heq. pose proof (api_init P Hapi f l) as Hk. by rewrite Heq in Hk.
  - intros [= <- _]. by split.
Qed.

Lemma restore_term_attached (l : Loop) (lg : list Event) (t : Term) :
  controlling_term l = Some t ->
  restore_term (mkWorld l lg)
    = (Ret tt, mkWorld (with_controlling_term None l) (lg ++ [EvRestore])).
Proof.
  intros Ht. unfold restore_term, bind, get_loop, emit, modify. cbn [loop log].
  by rewrite Ht.
Qed.

(** C2, amended: once boot is through and the initialization callback has
    returned without error, every way out of [Run] (a return, with or
    without error, or a panic) goes through the shutdown sequence once and
    in order: the flush of what is pending, then the clearing of the buffer,
    the finalizer if there is one, the reset codes, the final flush, and the
    release of the terminal; before it the log holds no flush, no clearing
    and no release. The first flush is left out only when a SIGHUP record
    was among the signals delivered. *)
Theorem shutdown_runs_once (P : Program) (X : Externals) (env : RunEnv) (w : World)
    (term : Term) (l1 : Loop) (fin : bytes) (r : res error) (w' : World) :
  api_program P ->
  b_pipe (boot env) = None ->
  b_open_term (boot env) = inl term ->
  b_set_raw (boot env) = None ->
  init_outcome P (booted X term (loop w)) = (l1, (fin, None)) ->
  Forall sane_flush (flush_first env) ->
  Forall sane_flush (flush_final env) ->
  Run P X env w = (r, w') ->
  r <> Pending ->
  exists lx added,
    log w' = log w ++ added /\
    shutdown_ran_once X fin lx added /\
    (flush_write_buf lx = false -> existsb hup_in (wakes env) = true) /\
    controlling_term (loop w') = None.
Proof.
  intros Hapi Hpipe Hopen Hraw Hinit Hs1 Hs2 Hrun Hr.
  destruct (Run_after_boot P X env w term l1 fin Hpipe Hopen Hraw Hinit)
    as (pre & Hpre & Heq).
  rewrite Heq in Hrun. clear Heq.
  apply defer_exit in Hrun as [Hnp ->]; [| done].
  set (body := modify (with_death_signal SIGNULL) ;;;
               modify (with_exit_code 0) ;;; main_loop P X (wakes env)) in *.
  set (w2 := mkWorld l1 (log w ++ pre)) in *.
  destruct (defer (shutdown X fin (flush_first env) (flush_final env)) body w2)
    as [ri wi] eqn:Hi.
  apply defer_exit in Hi as [_ ->]; [| done].
  assert (Hst : steady (existsb hup_in (wakes env)) body).
  { unfold body. apply steady_bind; [apply steady_modify; intros []; by split |].
    intros _. apply steady_bind; [apply steady_modify; intros []; by split |].
    intros _. by apply steady_main_loop. }
  destruct (Hst w2) as (Ht & Hf & ex & Hlog & Hex).
  subst w2. cbn [fst snd loop log] in *.
  destruct (init_outcome_private P _ _ _ Hapi Hinit) as [Ht1 Hf1].
  assert (Hterm1 : controlling_term l1 = Some term)
    by (rewrite Ht1; unfold booted; by destruct (loop w)).
  assert (Hflush1 : flush_write_buf l1 = true)
    by (rewrite Hf1; unfold booted; by destruct (loop w)).
  destruct (body _).2 as [lx lgx]. cbn [loop log] in *.
  destruct (shutdown_wrote X fin (flush_first env) (flush_final env) lx lgx term
              ltac:(congruence) Hs1 Hs2) as (ws1 & ws2 & buf & Hsh).
  rewrite Hsh. cbn [snd].
  rewrite (restore_term_attached _ _ term) by (rewrite <- Hterm1, <- Ht; by destruct lx).
  cbn [snd loop log].
  exists lx, ((pre ++ ex) ++ shutdown_steps X fin lx ws1 ws2). repeat split.
  - rewrite Hlog. unfold shutdown_steps. rewrite <- !app_assoc. reflexivity.
  - exists (pre ++ ex), ws1, ws2. split; [done |]. apply Forall_app. split; [done |].
    eapply Forall_impl; [exact Hex |]. apply loop_event_before_shutdown.
  - intros Hoff. destruct (existsb hup_in (wakes env)); [done |].
    rewrite Hf in Hoff by done. congruence.
  - by destruct lx.
Qed.

Lemma shutdown_runs_once_witness :
  let w' := (Run quiet_program demo_ext interrupted_env (mkWorld CreateLoop [])).2 in
  exists lx added,
    log w' = [] ++ added /\
    shutdown_ran_once demo_ext [] lx added /\
    (flush_write_buf lx = false -> existsb hup_in (wakes interrupted_env) = true) /\
    controlling_term (loop w') = None.
Proof.
  intros w'.
  apply (shutdown_runs_once quiet_program demo_ext interrupted_env
           (mkWorld CreateLoop []) (mkTerm 3)
           (booted demo_ext (mkTerm 3) CreateLoop) [] (Ret None) w').
  - constructor; intros; apply keeps_private_refl.
  - reflexivity.
  - reflexivity.
  - reflexivity.
  - reflexivity.
  - repeat constructor. intros buf. simpl. lia.
  - repeat constructor. intros buf. simpl. lia.
  - vm_compute. reflexivity.
  - discriminate.
Defined.

(** * Further properties of the code *)

(** ** The output buffer: nothing lost, nothing twice, nothing out of order *)

Lemma tty_output_app (a b : list Event) :
  tty_output (a ++ b) = tty_output a ++ tty_output b.
Proof. unfold tty_output. apply flat_map_app. Qed.

Lemma sent_refl (w : World) : sent [] w w.
Proof.
  exists (write_buf (loop w)). rewrite with_write_buf_id, app_nil_r. done.
Qed.

Lemma sent_trans (a b : bytes) (w1 w2 w3 : World) :
  sent a w1 w2 -> sent b w2 w3 -> sent (a ++ b) w1 w3.
Proof.
  intros (r1 & Hl1 & Hb1 & Ho1) (r2 & Hl2 & Hb2 & Ho2). exists r2.
  rewrite Hl1 in Hl2, Hb2. rewrite with_write_buf_twice in Hl2.
  replace (write_buf (with_write_buf r1 (loop w1))) with r1 in Hb2
    by (by destruct (loop w1)).
  split; [done |]. split.
  - by rewrite <- app_assoc, Hb2.
  - by rewrite Ho2, Ho1, app_assoc.
Qed.

Lemma sent_log_only (w : World) (e : Event) :
  (forall d, e <> EvWrite d) -> sent [] w (mkWorld (loop w) (log w ++ [e])).
Proof.
  intros He. exists (write_buf (loop w)). cbn [loop log].
  rewrite with_write_buf_id, tty_output_app, !app_nil_r. repeat split.
  destruct e as [h | d | | | d |]; cbn; rewrite ?app_nil_r; try done.
  by destruct (He d).
Qed.

(** One call of [write_to_tty] sends a head of the buffer. *)
Lemma write_to_tty_sent (f : bytes -> sysres) (w : World) :
  sane_write f ->
  exists e out w',
    write_to_tty f w = (Ret e, w') /\
    sent out w w' /\
    (e <> None -> out = []).
Proof.
  intros Hsane. destruct w as [l lg].
  unfold write_to_tty, bind, get_loop. cbn [loop].
  destruct ((len (write_buf l) =? 0) || bool_decide (controlling_term l = None)).
  { eexists _, [], _. split; [reflexivity |]. split; [apply sent_refl | done]. }
  specialize (Hsane (write_buf l)). unfold write_ignoring_temporary_errors.
  destruct (f (write_buf l)) as [n err]. cbn [fst] in Hsane.
  destruct (from_option is_temporary false err).
  { cbn. eexists _, [], _. split; [reflexivity |]. split; [apply sent_refl | done]. }
  destruct (n =? 0).
  { eexists _, [], _. split; [reflexivity |]. split; [apply sent_refl | done]. }
  destruct err as [e |]; cbn [fmap option_fmap option_map].
  { eexists _, [], _. split; [reflexivity |]. split; [apply sent_refl | done]. }
  destruct (n <=? 0).
  { eexists _, [], _. split; [reflexivity |]. split; [apply sent_refl | done]. }
  rewrite (proj2 (Z.ltb_ge _ _)) by lia.
  unfold emit, modify, ret. cbn [loop log].
  assert (Hsent : forall rest, rest = drop (Z.to_nat n) (write_buf l) ->
            sent (take (Z.to_nat n) (write_buf l)) (mkWorld l lg)
                 (mkWorld (with_write_buf rest l)
                          (lg ++ [EvWrite (take (Z.to_nat n) (write_buf l))]))).
  { intros rest ->. eexists. cbn [loop log]. split; [reflexivity |].
    split; [apply take_drop |].
    rewrite tty_output_app. cbn. by rewrite app_nil_r. }
  destruct (0 <? len (drop (Z.to_nat n) (write_buf l))) eqn:Hrem; cbn [loop log].
  - eexists _, (take (Z.to_nat n) (write_buf l)), _.
    split; [reflexivity |]. split; [by apply Hsent | done].
  - eexists _, (take (Z.to_nat n) (write_buf l)), _.
    split; [reflexivity |]. split; [| done]. apply Hsent.
    apply Z.ltb_ge in Hrem. rewrite take_0.
    destruct (drop (Z.to_nat n) (write_buf l)); [done |].
    unfold len in Hrem. simpl in Hrem. lia.
Qed.

(** X1: [write_to_tty] with a write primitive that reports no more than it
    was handed always returns, and what it returns leaves the byte stream
    whole: the bytes it sent are the head of the buffer, the buffer keeps
    the rest, the rest of the loop is as before, and an error or a write of
    nothing sends nothing. *)
Theorem write_to_tty_sends_head (f : bytes -> sysres) (w : World) :
  sane_write f ->
  exists e out w',
    write_to_tty f w = (Ret e, w') /\
    sent out w w' /\
    (e <> None -> out = []).
Proof. exact (write_to_tty_sent f w). Qed.

Lemma write_to_tty_sends_head_witness :
  let w := mkWorld (with_write_buf [x61; x62; x63] running_loop) [] in
  exists e out w',
    write_to_tty (accept 2) w = (Ret e, w') /\
    sent out w w' /\
    (e <> None -> out = []).
Proof.
  intros w. apply (write_to_tty_sends_head (accept 2) w).
  intros buf. unfold accept. simpl. lia.
Defined.

Lemma flush_loop_sent (script : list FlushWake) :
  Forall sane_flush script ->
  forall w, exists e out w', flush_loop script w = (Ret e, w') /\ sent out w w'.
Proof.
  induction 1 as [| s script Hs Hrest IH]; intros w.
  - cbn [flush_loop]. unfold bind, get_loop, ret.
    destruct (0 <? len (write_buf (loop w)));
      eexists _, [], _; (split; [reflexivity | apply sent_refl]).
  - cbn [flush_loop]. unfold bind at 1, get_loop at 1.
    destruct (0 <? len (write_buf (loop w)));
      [| eexists _, [], _; split; [reflexivity | apply sent_refl]].
    destruct (fw_expired s);
      [eexists _, [], _; split; [reflexivity | apply sent_refl] |].
    destruct (fw_wait s).2;
      [eexists _, [], _; split; [reflexivity | apply sent_refl] |].
    destruct ((0 <? (fw_wait s).1) && fw_writable s); [| apply IH].
    destruct (write_to_tty_sent (fw_write s) w Hs) as (e & out & w1 & Hw & Hsent & _).
    unfold bind. rewrite Hw. destruct e as [e |].
    + eexists _, _, _. split; [reflexivity | done].
    + destruct (IH w1) as (e' & out' & w2 & Hf & Hsent'). rewrite Hf.
      eexists _, _, _. split; [reflexivity |]. by eapply sent_trans.
Qed.

(** A flush sends a head of the buffer. *)
Lemma flush_sent (script : list FlushWake) (w : World) :
  Forall sane_flush script ->
  exists e out w',
    flush script w = (Ret e, w') /\
    sent out w w' /\
    (controlling_term (loop w) = None -> out = [] /\ e = None).
Proof.
  intros Hsane. unfold flush, bind, emit, get_loop. cbn [loop log].
  pose proof (sent_log_only w EvFlush ltac:(done)) as Hfl.
  destruct (controlling_term (loop w)) as [t |].
  - destruct (flush_loop_sent script Hsane (mkWorld (loop w) (log w ++ [EvFlush])))
      as (e & out & w' & Hf & Hsent).
    exists e, out, w'. split; [done |]. split; [| done].
    by apply (sent_trans [] out _ _ _ Hfl).
  - eexists None, [], _. split; [reflexivity |]. split; done.
Qed.

(** X2: [flush] always returns when the write primitive reports no more
    than it was handed, and it never loses, repeats or reorders a byte: what
    it sent to the terminal, followed by what it left in the buffer, is the
    buffer it found; the rest of the loop is untouched. Without a
    controlling terminal it sends nothing. *)
Theorem flush_sends_head (script : list FlushWake) (w : World) :
  Forall sane_flush script ->
  exists e out w',
    flush script w = (Ret e, w') /\
    sent out w w' /\
    (controlling_term (loop w) = None -> out = [] /\ e = None).
Proof. exact (flush_sent script w). Qed.

Lemma flush_sends_head_witness :
  let w := mkWorld (with_write_buf [x61; x62; x63] running_loop) [] in
  exists e out w',
    flush [mkFlushWake false (1, None) true (accept 2); ready_to_write] w = (Ret e, w') /\
    sent out w w' /\
    (controlling_term (loop w) = None -> out = [] /\ e = None).
Proof.
  intros w.
  apply (flush_sends_head [mkFlushWake false (1, None) true (accept 2); ready_to_write] w).
  repeat constructor; intros buf; unfold accept; simpl; lia.
Defined.

(** X3: the deferred shutdown always returns, and what it sends is, in
    order, a head of the bytes that were pending (nothing at all when
    [flush_write_buf] was cleared by SIGHUP) and then a head of the
    finalizer followed by the reset codes; the pending bytes that were not
    flushed in time are dropped, and the buffer is left with the unsent rest
    of finalizer and reset codes. *)
Theorem shutdown_sends (X : Externals) (fin : bytes) (f1 f2 : list FlushWake)
    (w : World) :
  Forall sane_flush f1 -> Forall sane_flush f2 ->
  exists out1 out2 w',
    shutdown X fin f1 f2 w = (Ret tt, w') /\
    out1 `prefix_of` write_buf (loop w) /\
    (flush_write_buf (loop w) = false -> out1 = []) /\
    tty_output (log w') = tty_output (log w) ++ out1 ++ out2 /\
    out2 ++ write_buf (loop w')
      = fin ++ ResetStateEscapeCodes X (terminal_options (loop w)).
Proof.
  intros Hs1 Hs2. destruct w as [l lg]. cbn [loop log].
  assert (Hfirst : exists out1 w1,
    (if flush_write_buf l then flush f1 ;;; ret tt else ret tt) (mkWorld l lg)
      = (Ret tt, w1) /\ sent out1 (mkWorld l lg) w1 /\
    (flush_write_buf l = false -> out1 = [])).
  { destruct (flush_write_buf l).
    - destruct (flush_sent f1 (mkWorld l lg) Hs1) as (e & out1 & w1 & Hf & Hsent & _).
      exists out1, w1. unfold bind. rewrite Hf. repeat split; done.
    - exists [], (mkWorld l lg). repeat split. apply sent_refl. }
  destruct Hfirst as (out1 & [l1 lg1] & Hfirst & (rest1 & Hl1 & Hb1 & Ho1) & Hoff).
  cbn [loop log] in *. subst l1.
  set (codes := ResetStateEscapeCodes X (terminal_options l)).
  set (l2 := with_write_buf (fin ++ codes) l).
  set (lg2 := lg1 ++ [EvClear] ++ (if len fin =? 0 then [] else [EvQueue fin]) ++
              [EvQueue codes]).
  destruct (flush_sent f2 (mkWorld l2 lg2) Hs2)
    as (e & out2 & [l3 lg3] & Hf & (rest2 & Hl3 & Hb2 & Ho2) & _).
  cbn [loop log] in *.
  exists out1, out2, (mkWorld l3 lg3).
  assert (Hrun : shutdown X fin f1 f2 (mkWorld l lg) = (Ret tt, mkWorld l3 lg3)).
  { unfold shutdown. unfold bind at 1, get_loop at 1. cbn [loop].
    unfold bind at 1. rewrite Hfirst.
    unfold bind at 1, emit at 1. cbn [loop log].
    unfold bind at 1, modify at 1. cbn [loop log].
    rewrite with_write_buf_twice, take_0.
    assert (Hmid :
      (if negb (len fin =? 0) then queue_write_to_tty fin else ret tt)
        (mkWorld (with_write_buf [] l) (lg1 ++ [EvClear]))
      = (Ret tt,
         mkWorld (with_write_buf fin l)
           (lg1 ++ [EvClear] ++ (if len fin =? 0 then [] else [EvQueue fin])))).
    { destruct (len fin =? 0) eqn:Hfin; cbn [negb].
      - apply Z.eqb_eq in Hfin. destruct fin; [| unfold len in Hfin; simpl in Hfin; lia].
        unfold ret. by rewrite app_nil_r.
      - unfold queue_write_to_tty, bind, emit, modify. cbn [loop log].
        rewrite <- app_assoc. f_equal. f_equal. by destruct l. }
    unfold bind at 1. rewrite Hmid.
    unfold bind at 1, get_loop at 1. cbn [loop].
    replace (terminal_options (with_write_buf fin l)) with (terminal_options l)
      by (by destruct l).
    fold codes.
    unfold bind at 1, queue_write_to_tty, bind at 1, emit, modify. cbn [loop log].
    replace (append_write_buf codes (with_write_buf fin l)) with l2
      by (unfold l2; by destruct l).
    replace ((lg1 ++ [EvClear] ++ (if len fin =? 0 then [] else [EvQueue fin])) ++
             [EvQueue codes]) with lg2
      by (unfold lg2; by rewrite <- !app_assoc).
    unfold bind. by rewrite Hf. }
  split; [exact Hrun |]. split; [by exists rest1 |]. split; [done |].
  cbn [loop log]. split.
  - rewrite Ho2. unfold lg2. rewrite !tty_output_app, Ho1.
    destruct (len fin =? 0); cbn; by rewrite ?app_nil_r, <- ?app_assoc.
  - rewrite Hl3. unfold l2 in *. rewrite with_write_buf_twice.
    replace (write_buf (with_write_buf rest2 l)) with rest2 by (by destruct l).
    replace (write_buf (with_write_buf (fin ++ codes) l)) with (fin ++ codes) in Hb2
      by (by destruct l).
    done.
Qed.

Lemma shutdown_sends_witness :
  let w := mkWorld (with_flush_write_buf false
                      (with_write_buf [x61; x62; x63] running_loop)) [] in
  exists out1 out2 w',
    shutdown demo_ext [x7a] [ready_to_write] [ready_to_write] w = (Ret tt, w') /\
    out1 `prefix_of` write_buf (loop w) /\
    (flush_write_buf (loop w) = false -> out1 = []) /\
    tty_output (log w') = tty_output (log w) ++ out1 ++ out2 /\
    out2 ++ write_buf (loop w')
      = [x7a] ++ ResetStateEscapeCodes demo_ext (terminal_options (loop w)).
Proof.
  intros w.
  apply (shutdown_sends demo_ext [x7a] [ready_to_write] [ready_to_write] w);
    repeat constructor; intros buf; simpl; lia.
Defined.

(** ** The input dispatcher *)

Lemma HasPrefix_spec (s pre : bytes) :
  HasPrefix s pre = true <-> exists rest, s = pre ++ rest.
Proof.
  revert s. induction pre as [| p pre IH]; intros s.
  - destruct s; simpl; (split; [intros _; by eexists | done]).
  - destruct s as [| c s]; simpl.
    + split; [done | intros [rest Hrest]; discriminate].
    + rewrite andb_true_iff, IH. split.
      * intros [Hpc [rest ->]]. apply byte_dec_bl in Hpc as ->. by exists rest.
      * intros [rest [= -> ->]]. split; [by apply byte_dec_lb | by exists rest].
Qed.

(** X4: a DCS payload that starts with the marker "@kitty-cmd" enters
    [OnRCResponse] once, with exactly the bytes after the marker; a payload
    that does not start with it changes nothing and enters no callback, and
    so does any payload when no callback is set. *)
Theorem rc_response_strips_marker (P : Program) (raw : bytes) (w : World) :
  (forall f payload,
     OnRCResponse (loop w) = Some f -> raw = kitty_cmd ++ payload ->
     handle_dcs P raw w
       = call HRCResponse (fun s => fn_rc_response P f s payload) w) /\
  ((OnRCResponse (loop w) = None \/ forall payload, raw <> kitty_cmd ++ payload) ->
     handle_dcs P raw w = (Ret None, w)).
Proof.
  split.
  - intros f payload Hf ->. unfold handle_dcs, bind, get_loop. cbn [loop].
    rewrite Hf.
    rewrite (proj2 (HasPrefix_spec _ _)) by (by exists payload).
    by rewrite drop_app_length.
  - intros Hno. unfold handle_dcs, bind, get_loop, ret. cbn [loop].
    destruct (OnRCResponse (loop w)) as [f |]; [| done].
    destruct Hno as [? | Hno]; [done |].
    destruct (HasPrefix raw kitty_cmd) eqn:Hp; [| done].
    apply HasPrefix_spec in Hp as [rest ->]. by destruct (Hno rest).
Qed.

(** X5: an error from the key callback comes straight back: the event and
    the loop are as the callback left them, no default binding runs (ctrl+c
    does not stop the loop) and the text callback is not entered. *)
Theorem key_callback_error_returns (P : Program) (X : Externals) (ev ev' : KeyEvent)
    (w : World) (f : FuncId) (l' : Loop) (e : Error) :
  OnKeyEvent (loop w) = Some f ->
  fn_key P f (loop w) ev = (l', (ev', Some e)) ->
  handle_key_event P X ev w
    = (Ret (ev', Some e), mkWorld l' (log w ++ [EvCall HKeyEvent])).
Proof.
  intros Hf Hcb. unfold handle_key_event, bind, get_loop, call, ret. cbn [loop].
  by rewrite Hf, Hcb.
Qed.

Lemma key_callback_error_returns_witness :
  let w := mkWorld (with_OnKeyEvent (Some 0%nat) running_loop) [] in
  handle_key_event failing_key_program demo_ext ctrl_c w
    = (Ret (ctrl_c, Some (ErrOther 2)), mkWorld (loop w) [EvCall HKeyEvent]).
Proof.
  intros w.
  apply (key_callback_error_returns failing_key_program demo_ext ctrl_c ctrl_c w
           0%nat (loop w) (ErrOther 2)); reflexivity.
Defined.

(** X6: a key event that the key callback left unhandled (without error)
    and that is neither ctrl+c nor ctrl+z is passed on by its text: when the
    text is not empty and [OnText] is set, [OnText] is entered once with the
    text, from_key_event true and in_bracketed_paste false, and its error is
    the result; otherwise nothing more happens. The event keeps its
    [Handled] flag. *)
Theorem key_text_goes_to_OnText (P : Program) (X : Externals) (ev ev1 : KeyEvent)
    (w w1 : World) :
  after_key_callback P ev w = (w1, ev1, None) ->
  OnKeyEvent (loop w) = None \/ Handled ev1 = false ->
  MatchesPressOrRepeat X ev1 "ctrl+c" = false ->
  MatchesPressOrRepeat X ev1 "ctrl+z" = false ->
  handle_key_event P X ev w =
    match OnText (loop w1) with
    | Some g =>
      if len (Text ev1) =? 0 then (Ret (ev1, None), w1)
      else (let '(l2, err) := fn_text P g (loop w1) (Text ev1) true false in
            (Ret (ev1, err), mkWorld l2 (log w1 ++ [EvCall HText])))
    | None => (Ret (ev1, None), w1)
    end.
Proof.
  intros Hcb Hun Hc Hz. unfold after_key_callback in Hcb.
  assert (Hrest : forall w1' ev1', w1' = w1 -> ev1' = ev1 ->
    (if MatchesPressOrRepeat X ev1' "ctrl+c"
     then err <~ on_SIGINT ;; ret (set_Handled true ev1', err)
     else if MatchesPressOrRepeat X ev1' "ctrl+z"
     then err <~ on_SIGTSTP ;; ret (set_Handled true ev1', err)
     else l <~ get_loop ;;
          match OnText l with
          | Some f =>
            if negb (len (Text ev1') =? 0)
            then err <~ call HText (fun s => fn_text P f s (Text ev1') true false) ;;
                 ret (ev1', err)
            else ret (ev1', None)
          | None => ret (ev1', None)
          end) w1' =
    match OnText (loop w1) with
    | Some g =>
      if len (Text ev1) =? 0 then (Ret (ev1, None), w1)
      else (let '(l2, err) := fn_text P g (loop w1) (Text ev1) true false in
            (Ret (ev1, err), mkWorld l2 (log w1 ++ [EvCall HText])))
    | None => (Ret (ev1, None), w1)
    end).
  { intros ? ? -> ->. rewrite Hc, Hz. unfold bind, get_loop, call, ret. cbn [loop].
    destruct (OnText (loop w1)) as [g |]; [| done].
    destruct (len (Text ev1) =? 0); cbn [negb]; [done |].
    by destruct (fn_text P g (loop w1) (Text ev1) true false) as [l2 err]. }
  unfold handle_key_event. unfold bind at 1, get_loop at 1. cbn [loop].
  destruct (OnKeyEvent (loop w)) as [f |].
  - destruct Hun as [? | Hh]; [done |].
    unfold bind at 1. unfold bind at 1, call at 1.
    destruct (fn_key P f (loop w) ev) as [l' [ev' err]].
    injection Hcb as <- <- ->. cbn [ret]. rewrite Hh. unfold ret at 1.
    by apply Hrest.
  - injection Hcb as <- <-. unfold bind at 1, ret at 1. by apply Hrest.
Qed.

Lemma key_text_goes_to_OnText_witness :
  let w := mkWorld (with_OnText (Some 0%nat) (with_OnKeyEvent (Some 0%nat) running_loop)) [] in
  handle_key_event quiet_program demo_ext key_a w
    = (Ret (key_a, None), mkWorld (loop w) [EvCall HKeyEvent; EvCall HText]).
Proof.
  intros w.
  apply (key_text_goes_to_OnText quiet_program demo_ext key_a key_a w
           (mkWorld (loop w) [EvCall HKeyEvent]) eq_refl (or_intror eq_refl)
           eq_refl eq_refl).
Defined.

Lemma rc_response_strips_marker_witness :
  let w := mkWorld (with_OnRCResponse (Some 0%nat) running_loop) [] in
  handle_dcs quiet_program (kitty_cmd ++ [x48; x49]) w
    = call HRCResponse (fun s => fn_rc_response quiet_program 0%nat s [x48; x49]) w /\
  handle_dcs quiet_program [x48; x49] w = (Ret None, w).
Proof.
  intros w. split.
  - apply (proj1 (rc_response_strips_marker quiet_program (kitty_cmd ++ [x48; x49]) w)
             0%nat [x48; x49]); reflexivity.
  - apply (proj2 (rc_response_strips_marker quiet_program [x48; x49] w)).
    right. intros payload. discriminate.
Defined.

(** ** The timer queue: what the operations do to the collection *)

Lemma insert_by_deadline_perm (t : timer) (us : list timer) :
  insert_by_deadline t us ≡ₚ t :: us.
Proof.
  induction us as [| u us IH]; simpl; [done |].
  destruct (time_Before (deadline u) (deadline t)); [| done].
  rewrite IH. apply Permutation_swap.
Qed.

Lemma SliceStable_perm (us : list timer) : SliceStable us ≡ₚ us.
Proof.
  induction us as [| u us IH]; simpl; [done |].
  by rewrite insert_by_deadline_perm, IH.
Qed.

(** Among the timers of one deadline, insertion puts the new one first. *)
Lemma filter_insert_by_deadline (d : Time) (t : timer) (us : list timer) :
  filter (fun u => deadline u = d) (insert_by_deadline t us)
    = filter (fun u => deadline u = d) (t :: us).
Proof.
  induction us as [| u us IH]; simpl; [done |].
  destruct (time_Before (deadline u) (deadline t)) eqn:Hb; [| done].
  unfold time_Before in Hb. apply Z.ltb_lt in Hb.
  rewrite (filter_cons _ u), IH, !filter_cons.
  repeat case_decide; try done; lia.
Qed.

Lemma SliceStable_stable (d : Time) (us : list timer) :
  filter (fun u => deadline u = d) (SliceStable us)
    = filter (fun u => deadline u = d) us.
Proof.
  induction us as [| u us IH]; simpl; [done |].
  by rewrite filter_insert_by_deadline, !filter_cons, IH.
Qed.

(** X7: on a collection without nil entry [sort_timers] returns and only
    reorders: the result holds the same timers, ascending by deadline, and
    timers with equal deadlines keep the order they had; nothing else in the
    loop changes. *)
Theorem sort_timers_reorders (us : list timer) (w : World) :
  timers (loop w) = Some <$> us ->
  exists vs,
    sort_timers w = (Ret tt, mkWorld (with_timers (Some <$> vs) (loop w)) (log w)) /\
    vs ≡ₚ us /\
    StronglySorted deadline_le vs /\
    forall d, filter (fun u => deadline u = d) vs = filter (fun u => deadline u = d) us.
Proof.
  intros Hus. exists (SliceStable us). destruct w as [l lg]. cbn [loop log] in *.
  split; [by apply sort_timers_Some |]. split; [apply SliceStable_perm |].
  split; [apply SliceStable_sorted | intros d; apply SliceStable_stable].
Qed.

Lemma sort_timers_reorders_witness :
  let w := mkWorld (with_timers [Some timer_later; Some timer_due] running_loop) [] in
  exists vs,
    sort_timers w = (Ret tt, mkWorld (with_timers (Some <$> vs) (loop w)) (log w)) /\
    vs ≡ₚ [timer_later; timer_due] /\
    StronglySorted deadline_le vs /\
    forall d, filter (fun u => deadline u = d) vs
              = filter (fun u => deadline u = d) [timer_later; timer_due].
Proof.
  intros w. apply (sort_timers_reorders [timer_later; timer_due] w). reflexivity.
Defined.

(** A sorted collection goes through the sort unchanged. *)
Lemma insert_before_all (t : timer) (us : list timer) :
  Forall (deadline_le t) us -> insert_by_deadline t us = t :: us.
Proof.
  destruct 1 as [| u us Hu Hus]; simpl; [done |].
  unfold time_Before, deadline_le in *. by rewrite (proj2 (Z.ltb_ge _ _)).
Qed.

Lemma SliceStable_sorted_id (us : list timer) :
  StronglySorted deadline_le us -> SliceStable us = us.
Proof.
  induction 1 as [| u us Hs IH Hall]; simpl; [done |].
  rewrite IH. by apply insert_before_all.
Qed.

(** Where a new last element lands in a sorted collection: behind every
    timer that is not later than it, in front of the later ones. *)
Lemma SliceStable_snoc (t : timer) (us : list timer) :
  StronglySorted deadline_le us ->
  exists a b,
    us = a ++ b /\
    SliceStable (us ++ [t]) = a ++ t :: b /\
    Forall (fun u => deadline u <= deadline t) a /\
    Forall (fun u => deadline t < deadline u) b.
Proof.
  unfold SliceStable. rewrite foldr_app. cbn [foldr insert_by_deadline].
  induction 1 as [| u us Hs IH Hall].
  - exists [], []. by repeat split.
  - destruct IH as (a & b & -> & Hfold & Ha & Hb). cbn [foldr]. rewrite Hfold.
    apply Forall_app in Hall as [Hua Hub]. unfold deadline_le in *.
    destruct a as [| a1 a].
    + cbn [app insert_by_deadline]. unfold time_Before.
      destruct (deadline t <? deadline u) eqn:Htu.
      * apply Z.ltb_lt in Htu. exists [], (u :: b). cbn [app].
        rewrite insert_before_all by done. repeat split; [done |].
        by constructor.
      * apply Z.ltb_ge in Htu. exists [u], b. cbn [app].
        repeat split; [| done]. by repeat constructor.
    + apply Forall_cons in Hua as [Hu1 Hua]. apply Forall_cons in Ha as [Ha1 Ha].
      cbn [app insert_by_deadline]. unfold time_Before.
      rewrite (proj2 (Z.ltb_ge _ _)) by done.
      exists (u :: a1 :: a), b. cbn [app]. repeat split; [| done].
      constructor; [lia | by constructor].
Qed.

(** The place a new timer takes in a sorted collection. *)
Lemma AddTimer_at (now : Time) (ival : Duration) (rep : bool) (cb : FuncId)
    (us : list timer) (w : World) :
  timers (loop w) = Some <$> us ->
  StronglySorted deadline_le us ->
  0 <= timer_id_counter (loop w) ->
  timer_id_counter (loop w) + 1 < uint_max ->
  let tid := timer_id_counter (loop w) + 1 in
  let t := mkTimer ival (now + ival) rep tid cb in
  exists a b,
    us = a ++ b /\
    Forall (fun u => deadline u <= now + ival) a /\
    Forall (fun u => now + ival < deadline u) b /\
    AddTimer now ival rep cb w
      = (Ret tid,
         mkWorld (with_timers (Some <$> (a ++ t :: b))
                    (with_timer_id_counter tid (loop w)))
                 (log w)).
Proof.
  intros Hus Hs H0 Hmax. cbv zeta. destruct w as [l lg]. destruct l.
  cbn [loop log timers timer_id_counter] in *. subst.
  set (tid := timer_id_counter0 + 1).
  destruct (SliceStable_snoc (mkTimer ival (now + ival) rep tid cb) us Hs)
    as (a & b & Hab & Hsort & Ha & Hb).
  exists a, b. split; [done |]. split; [done |]. split; [done |].
  unfold AddTimer, bind, modify, get_loop, ret.
  cbn [loop log timers timer_id_counter with_timer_id_counter with_timers id
       update_deadline interval repeats callback].
  unfold wrap64. rewrite Z.mod_small by lia. fold tid. unfold time_Add.
  erewrite (sort_timers_Some (us ++ [_]));
    [| cbn [timers]; rewrite fmap_app; reflexivity].
  change (update_deadline now (mkTimer ival 0 rep tid cb))
    with (mkTimer ival (now + ival) rep tid cb).
  by rewrite Hsort.
Qed.

(** X8: [AddTimer] on a sorted collection, the id counter not at its end:
    the id returned is the counter plus one, the new timer is due at
    now + interval, it goes behind every timer due no later than itself and
    in front of the later ones, the other timers keep their places, and the
    rest of the loop is untouched. *)
Theorem AddTimer_inserts (now : Time) (ival : Duration) (rep : bool) (cb : FuncId)
    (us : list timer) (w : World) :
  timers (loop w) = Some <$> us ->
  StronglySorted deadline_le us ->
  0 <= timer_id_counter (loop w) ->
  timer_id_counter (loop w) + 1 < uint_max ->
  let tid := timer_id_counter (loop w) + 1 in
  let t := mkTimer ival (now + ival) rep tid cb in
  exists a b,
    us = a ++ b /\
    Forall (fun u => deadline u <= now + ival) a /\
    Forall (fun u => now + ival < deadline u) b /\
    AddTimer now ival rep cb w
      = (Ret tid,
         mkWorld (with_timers (Some <$> (a ++ t :: b))
                    (with_timer_id_counter tid (loop w)))
                 (log w)).
Proof. exact (AddTimer_at now ival rep cb us w). Qed.

Lemma AddTimer_inserts_witness :
  let w := mkWorld (with_timers [Some timer_due; Some timer_later] running_loop) [] in
  exists a b,
    [timer_due; timer_later] = a ++ b /\
    Forall (fun u => deadline u <= 10 + 20) a /\
    Forall (fun u => 10 + 20 < deadline u) b /\
    AddTimer 10 20 true 4%nat w
      = (Ret 1,
         mkWorld (with_timers (Some <$> (a ++ mkTimer 20 (10 + 20) true 1 4%nat :: b))
                    (with_timer_id_counter 1 (loop w)))
                 (log w)).
Proof.
  intros w.
  apply (AddTimer_inserts 10 20 true 4%nat [timer_due; timer_later] w).
  - reflexivity.
  - repeat constructor; unfold deadline_le; simpl; lia.
  - simpl. lia.
  - vm_compute. reflexivity.
Defined.

Lemma remove_scan_absent (tid : TimerId) (us : list timer) :
  tid ∉ id <$> us -> remove_scan tid (Some <$> us) = Some (false, Some <$> us).
Proof.
  induction us as [| u us IH]; [done |].
  rewrite !fmap_cons, not_elem_of_cons. intros [Hu Hus]. cbn [remove_scan].
  rewrite (proj2 (Z.eqb_neq _ _)) by done. by rewrite IH.
Qed.

Lemma remove_scan_present (tid : TimerId) (a : list timer) (t : timer) (b : list timer) :
  id t = tid -> tid ∉ id <$> a ->
  remove_scan tid (Some <$> (a ++ t :: b)) = Some (true, Some <$> (a ++ b)).
Proof.
  intros Ht. induction a as [| u a IH].
  - intros _. cbn [app]. rewrite fmap_cons. cbn [remove_scan].
    by rewrite (proj2 (Z.eqb_eq _ _)).
  - rewrite fmap_cons, not_elem_of_cons. intros [Hu Ha].
    cbn [app]. rewrite !fmap_cons. cbn [remove_scan].
    rewrite (proj2 (Z.eqb_neq _ _)) by done. by rewrite IH.
Qed.

(** Removal by id, found or not. *)
Lemma RemoveTimer_at (tid : TimerId) (us : list timer) (w : World) :
  timers (loop w) = Some <$> us ->
  (tid ∉ id <$> us -> RemoveTimer tid w = (Ret false, w)) /\
  (forall a t b,
     us = a ++ t :: b -> id t = tid -> tid ∉ id <$> a ->
     RemoveTimer tid w
       = (Ret true, mkWorld (with_timers (Some <$> (a ++ b)) (loop w)) (log w))).
Proof.
  intros Hus. destruct w as [l lg]. cbn [loop log] in *. split.
  - intros Habs. unfold RemoveTimer, bind, get_loop, ret. cbn [loop].
    by rewrite Hus, remove_scan_absent.
  - intros a t b -> Ht Ha. unfold RemoveTimer, bind, get_loop, modify, ret.
    cbn [loop log]. by rewrite Hus, remove_scan_present.
Qed.

(** X9: [RemoveTimer] on a collection without nil entry. An id that no
    timer carries gives false and changes nothing. An id that is carried
    gives true and takes out the first timer that carries it, and only that
    one: the timers before and after it stay, in their order. *)
Theorem RemoveTimer_takes_first (tid : TimerId) (us : list timer) (w : World) :
  timers (loop w) = Some <$> us ->
  (tid ∉ id <$> us -> RemoveTimer tid w = (Ret false, w)) /\
  (forall a t b,
     us = a ++ t :: b -> id t = tid -> tid ∉ id <$> a ->
     RemoveTimer tid w
       = (Ret true, mkWorld (with_timers (Some <$> (a ++ b)) (loop w)) (log w))).
Proof. exact (RemoveTimer_at tid us w). Qed.

Lemma RemoveTimer_takes_first_witness :
  let w := mkWorld (with_timers [Some timer_due; Some timer_later] running_loop) [] in
  RemoveTimer 7 w = (Ret false, w) /\
  RemoveTimer 2 w = (Ret true, mkWorld (with_timers [Some timer_due] (loop w)) (log w)).
Proof.
  intros w.
  pose proof (RemoveTimer_takes_first 7 [timer_due; timer_later] w eq_refl) as [H7 _].
  pose proof (RemoveTimer_takes_first 2 [timer_due; timer_later] w eq_refl) as [_ H2].
  split.
  - apply H7. vm_compute. intros Hin.
    repeat (apply elem_of_cons in Hin as [Hin | Hin]; [discriminate |]).
    by apply not_elem_of_nil in Hin.
  - apply (H2 [timer_due] timer_later [] eq_refl eq_refl). vm_compute. intros Hin.
    repeat (apply elem_of_cons in Hin as [Hin | Hin]; [discriminate |]).
    by apply not_elem_of_nil in Hin.
Defined.

(** X10: adding a timer to a sorted collection and removing it again by the
    id that [AddTimer] returned gives the collection back as it was; of the
    loop only the id counter has moved. The ids in the collection are below
    the counter's next value, as they are when they all come from
    [AddTimer]. *)
Theorem add_then_remove (now : Time) (ival : Duration) (rep : bool) (cb : FuncId)
    (us : list timer) (w : World) :
  timers (loop w) = Some <$> us ->
  StronglySorted deadline_le us ->
  Forall (fun u => id u <= timer_id_counter (loop w)) us ->
  0 <= timer_id_counter (loop w) ->
  timer_id_counter (loop w) + 1 < uint_max ->
  (tid <~ AddTimer now ival rep cb ;; RemoveTimer tid) w
    = (Ret true,
       mkWorld (with_timer_id_counter (timer_id_counter (loop w) + 1) (loop w)) (log w)).
Proof.
  intros Hus Hs Hids H0 Hmax.
  destruct (AddTimer_at now ival rep cb us w Hus Hs H0 Hmax)
    as (a & b & Hab & _ & _ & Hadd).
  unfold bind. rewrite Hadd.
  set (tid := timer_id_counter (loop w) + 1) in *.
  set (t := mkTimer ival (now + ival) rep tid cb) in *.
  set (w1 := mkWorld _ _).
  assert (Hus1 : timers (loop w1) = Some <$> (a ++ t :: b))
    by (unfold w1; cbn [loop]; by destruct (loop w)).
  destruct (RemoveTimer_at tid (a ++ t :: b) w1 Hus1) as [_ Hrem].
  rewrite (Hrem a t b eq_refl eq_refl).
  - unfold w1. cbn [loop log]. f_equal. f_equal.
    rewrite <- Hab. destruct w as [l lg]. cbn [loop] in *. destruct l.
    cbn in *. by subst.
  - subst us. apply Forall_app in Hids as [Ha _].
    intros Hin. apply list_elem_of_fmap in Hin as (u & Hu & Hin).
    rewrite Forall_forall in Ha. specialize (Ha u Hin). unfold tid in Hu. lia.
Qed.

Lemma add_then_remove_witness :
  let w := mkWorld (with_timer_id_counter 2
                      (with_timers [Some timer_due; Some timer_later] running_loop)) [] in
  (tid <~ AddTimer 10 20 true 4%nat ;; RemoveTimer tid) w
    = (Ret true, mkWorld (with_timer_id_counter 3 (loop w)) (log w)).
Proof.
  intros w.
  apply (add_then_remove 10 20 true 4%nat [timer_due; timer_later] w).
  - reflexivity.
  - repeat constructor; unfold deadline_le; simpl; lia.
  - repeat constructor; simpl; lia.
  - simpl. lia.
  - vm_compute. reflexivity.
Defined.

(** ** Dispatch of repeating timers *)

Section DispatchRepeating.

Variable P : Program.
Variable now : Time.
Hypothesis quiet : quiet_timers P.

Lemma dispatch_scan_repeating (ts : list timer) :
  forall (pre : list timer) (upd : bool) (w : World),
  timers (loop w) = Some <$> (pre ++ ts) ->
  Forall (fun u => is_due now u = true -> repeats u = true) ts ->
  exists w',
    dispatch_scan P now (length pre) (Some <$> ts) upd ∅ w
      = (Ret (None, upd || existsb (is_due now) ts, ∅), w') /\
    timers (loop w') = Some <$> (pre ++ (rearm now <$> ts)) /\
    log w' = log w ++ (EvCall ∘ HTimer ∘ id <$> filter (fun u => is_due now u = true) ts).
Proof.
  induction ts as [| t ts IH]; intros pre upd w Hts Hrep.
  - exists w. cbn. rewrite orb_false_r, !app_nil_r. by rewrite app_nil_r in Hts.
  - apply Forall_cons in Hrep as [Ht Hrep].
    rewrite fmap_cons. cbn [dispatch_scan]. fold (is_due now t).
    rewrite filter_cons. unfold rearm at 1. cbn [existsb fmap list_fmap].
    destruct (is_due now t) eqn:Hdue.
    + rewrite Ht by done. unfold bind at 1, call at 1.
      destruct (quiet (callback t) (loop w) (id t)) as [Hkeep Herr].
      destruct (fn_timer P (callback t) (loop w) (id t)) as [l1 err].
      cbn [fst snd] in *. subst err.
      unfold bind at 1, modify at 1. cbn [loop log].
      set (w2 := mkWorld _ _).
      assert (Hts2 : timers (loop w2)
                     = Some <$> ((pre ++ [update_deadline now t]) ++ ts)).
      { unfold w2. cbn [loop]. replace (timers (with_timers _ l1))
          with (alter (fmap (update_deadline now)) (length pre) (timers l1))
          by (by destruct l1).
        rewrite Hkeep, Hts, fmap_app, fmap_cons.
        replace (length pre) with (length (Some <$> pre) + 0)%nat
          by (rewrite length_fmap; lia).
        rewrite alter_app_r. cbn [alter list_alter fmap option_fmap option_map].
        by rewrite <- app_assoc, fmap_app. }
      destruct (IH (pre ++ [update_deadline now t]) true w2 Hts2 Hrep)
        as (w' & Hscan & Htim & Hlog).
      rewrite length_app, Nat.add_1_r in Hscan.
      exists w'. split; [by rewrite orb_true_r |]. split.
      * by rewrite Htim, <- app_assoc.
      * rewrite Hlog. unfold w2. cbn [log]. case_decide; [| done].
        by rewrite <- app_assoc.
    + assert (Hts2 : timers (loop w) = Some <$> ((pre ++ [t]) ++ ts))
        by (by rewrite <- app_assoc).
      destruct (IH (pre ++ [t]) upd w Hts2 Hrep) as (w' & Hscan & Htim & Hlog).
      rewrite length_app, Nat.add_1_r in Hscan.
      exists w'. split; [by rewrite orb_false_l |]. split.
      * by rewrite Htim, <- app_assoc.
      * rewrite Hlog. by case_decide.
Qed.

Lemma rearm_none_due (ts : list timer) :
  existsb (is_due now) ts = false -> rearm now <$> ts = ts.
Proof.
  induction ts as [| t ts IH]; [done |]. cbn [existsb].
  intros [Ht Hts]%orb_false_iff. rewrite fmap_cons, IH by done.
  unfold rearm. by rewrite Ht.
Qed.

(** X11: dispatch when every timer that is due repeats (callbacks return
    nil and leave the collection alone, the collection is sorted and has no
    nil entry). The callbacks of the due timers are entered once each, in
    the order of the collection, and those of the others are not; every due
    timer gets the deadline now + interval, counted from the time of the
    dispatch and not from the deadline it missed; no timer is dropped and
    the collection is sorted again. *)
Theorem dispatch_rearms_repeating (us : list timer) (w : World) :
  timers (loop w) = Some <$> us ->
  StronglySorted deadline_le us ->
  Forall (fun u => is_due now u = true -> repeats u = true) us ->
  exists w',
    dispatch_timers P now w = (Ret None, w') /\
    timers (loop w') = Some <$> SliceStable (rearm now <$> us) /\
    log w' = log w ++ (EvCall ∘ HTimer ∘ id <$> filter (fun u => is_due now u = true) us).
Proof.
  intros Hus Hs Hrep.
  destruct (dispatch_scan_repeating us [] false w Hus Hrep) as (w1 & Hscan & Htim & Hlog).
  cbn [length app orb] in *.
  unfold dispatch_timers. unfold bind at 1, get_loop at 1. cbn [loop].
  rewrite Hus. unfold bind at 1. rewrite Hscan.
  rewrite size_empty. change (0 <? Z.of_nat 0) with false. cbv iota.
  unfold bind at 1, ret at 1.
  destruct (existsb (is_due now) us) eqn:Hany.
  - destruct w1 as [l1 lg1]. cbn [loop log] in *.
    unfold bind at 1. rewrite (sort_timers_Some (rearm now <$> us)) by done.
    eexists. split; [reflexivity |]. cbn [loop log]. split; [by destruct l1 | done].
  - exists w1. split; [reflexivity |]. split; [| done].
    rewrite Htim, rearm_none_due by done. by rewrite SliceStable_sorted_id.
Qed.

End DispatchRepeating.

Lemma dispatch_rearms_repeating_witness :
  let w := mkWorld (with_timers [Some timer_tick; Some timer_later] running_loop) [] in
  exists w',
    dispatch_timers quiet_program 10 w = (Ret None, w') /\
    timers (loop w')
      = Some <$> SliceStable (rearm 10 <$> [timer_tick; timer_later]) /\
    log w' = log w ++ (EvCall ∘ HTimer ∘ id
                         <$> filter (fun u => is_due 10 u = true) [timer_tick; timer_later]).
Proof.
  intros w.
  apply (dispatch_rearms_repeating quiet_program 10 ltac:(by intros f l tid)
           [timer_tick; timer_later] w).
  - reflexivity.
  - repeat constructor; unfold deadline_le; simpl; lia.
  - repeat constructor; intros; try reflexivity; discriminate.
Defined.

(** A timer callback error ends the dispatch where it occurs. *)
Lemma dispatch_scan_skips (P : Program) (now : Time) (pre : list timer) :
  Forall (fun u => is_due now u = false) pre ->
  forall i ts upd remove,
    dispatch_scan P now i ((Some <$> pre) ++ ts) upd remove
      = dispatch_scan P now (i + length pre) ts upd remove.
Proof.
  induction 1 as [| u pre Hu Hpre IH]; intros i ts upd remove.
  - cbn. by rewrite Nat.add_0_r.
  - rewrite fmap_cons. cbn [app dispatch_scan length]. fold (is_due now u).
    rewrite Hu, IH. f_equal. lia.
Qed.

(** X12: when the first timer that is due has a callback that returns an
    error, [dispatch_timers] returns that error at once: the loop is as the
    callback left it (no deadline moved, no timer taken out, no sort), the
    callbacks of the timers behind it are not entered, and those in front,
    not being due, were not entered either. *)
Theorem dispatch_stops_at_error (P : Program) (now : Time) (pre : list timer)
    (t : timer) (rest : list timer) (w : World) (l1 : Loop) (e : Error) :
  timers (loop w) = Some <$> (pre ++ t :: rest) ->
  Forall (fun u => is_due now u = false) pre ->
  is_due now t = true ->
  fn_timer P (callback t) (loop w) (id t) = (l1, Some e) ->
  dispatch_timers P now w
    = (Ret (Some e), mkWorld l1 (log w ++ [EvCall (HTimer (id t))])).
Proof.
  intros Hts Hpre Hdue Hcb.
  unfold dispatch_timers. unfold bind at 1, get_loop at 1. cbn [loop].
  rewrite Hts, fmap_app, fmap_cons, dispatch_scan_skips by done.
  cbn [dispatch_scan]. fold (is_due now t). rewrite Hdue.
  unfold bind, call, ret. by rewrite Hcb.
Qed.

Lemma dispatch_stops_at_error_witness :
  let w := mkWorld (with_timers [Some timer_later; Some timer_due; Some timer_tick]
                      running_loop) [] in
  dispatch_timers failing_timer_program 10 w
    = (Ret (Some (ErrOther 3)), mkWorld (loop w) [EvCall (HTimer 1)]).
Proof.
  intros w.
  apply (dispatch_stops_at_error failing_timer_program 10 [timer_later] timer_due
           [timer_tick] w (loop w) (ErrOther 3)).
  - reflexivity.
  - by repeat constructor.
  - reflexivity.
  - reflexivity.
Defined.

(** ** Reading the terminal *)

(** X13: a readable terminal whose read gives nothing. When the read fails
    with EINTR, EAGAIN or EWOULDBLOCK the turn goes on and nothing happens:
    no callback, no decoding. When it reports zero bytes otherwise, with or
    without an error of its own, the loop is left with [io.EOF]; again no
    callback is entered. *)
Theorem read_step_without_data (P : Program) (X : Externals) (k : Wake) (w : World) :
  k_tty_readable k = true ->
  (forall n e, k_read k = (n, Some e) -> is_temporary e = true ->
     read_step P X k w = (Ret Next, w)) /\
  (forall err, k_read k = (0, err) -> from_option is_temporary false err = false ->
     read_step P X k w = (Ret (Return (Some io_EOF)), w)).
Proof.
  intros Hr. unfold read_step, read_ignoring_temporary_errors. rewrite Hr. split.
  - intros n e -> He. cbn. by rewrite He.
  - intros err -> He. by rewrite He.
Qed.

Lemma read_step_without_data_witness :
  let w := mkWorld running_loop [] in
  read_step quiet_program demo_ext (read_wake (-1, Some EINTR)) w = (Ret Next, w) /\
  read_step quiet_program demo_ext (read_wake (0, None)) w
    = (Ret (Return (Some io_EOF)), w).
Proof.
  intros w. split.
  - apply (proj1 (read_step_without_data quiet_program demo_ext
                    (read_wake (-1, Some EINTR)) w eq_refl) (-1) EINTR); reflexivity.
  - apply (proj2 (read_step_without_data quiet_program demo_ext
                    (read_wake (0, None)) w eq_refl) None); reflexivity.
Defined.

(** ** Run: the terminal is always given back *)

Lemma Run_raw_failure (P : Program) (X : Externals) (env : RunEnv) (w : World)
    (term : Term) (e : Error) :
  b_pipe (boot env) = None ->
  b_open_term (boot env) = inl term ->
  b_set_raw (boot env) = Some e ->
  Run P X env w
    = (Ret None, mkWorld (with_controlling_term None (loop w)) (log w ++ [EvRestore])).
Proof.
  intros Hpipe Hopen Hraw. unfold Run. rewrite Hpipe, Hopen, Hraw.
  destruct w as [l lg]. by destruct l.
Qed.

Lemma Run_init_error (P : Program) (X : Externals) (env : RunEnv) (w : World)
    (term : Term) (l1 : Loop) (fin : bytes) (e : Error) :
  b_pipe (boot env) = None ->
  b_open_term (boot env) = inl term ->
  b_set_raw (boot env) = None ->
  init_outcome P (booted X term (loop w)) = (l1, (fin, Some e)) ->
  controlling_term l1 = Some term ->
  exists pre,
    Forall before_shutdown pre /\
    Run P X env w
      = (Ret (Some e),
         mkWorld (with_controlling_term None l1) (log w ++ pre ++ [EvRestore])).
Proof.
  intros Hpipe Hopen Hraw Hinit Hterm. unfold Run. rewrite Hpipe, Hopen, Hraw.
  unfold init_outcome, booted in Hinit.
  destruct w as [l lg]. cbn [loop log] in *.
  unfold bind at 1, modify at 1. cbn [loop log].
  do 2 (erewrite defer_bind_ret; [| reflexivity]; cbn [loop log]).
  set (l0 := with_flush_write_buf true
               (with_keep_going true (with_controlling_term (Some term) l))) in *.
  do 3 (erewrite defer_bind_ret; [| reflexivity]; cbn [loop log]).
  set (codes := SetStateEscapeCodes X (terminal_options l0)) in *.
  destruct (OnInitialize (append_write_buf codes l0)) as [f |]; [| done].
  exists [EvQueue codes; EvCall HInitialize]. split; [by repeat constructor |].
  erewrite defer_bind_ret; [| unfold call; cbn [loop log]; rewrite Hinit; reflexivity].
  unfold defer, ret. rewrite (restore_term_attached _ _ term Hterm).
  by rewrite <- !app_assoc.
Qed.

(** The way out of the loop, for the release of the terminal: the log ends
    with the shutdown steps and the terminal handle is nil. *)
Lemma Run_loop_exit (P : Program) (X : Externals) (env : RunEnv) (w : World)
    (term : Term) (l1 : Loop) (fin : bytes) (r : res error) (w' : World) :
  api_program P ->
  b_pipe (boot env) = None ->
  b_open_term (boot env) = inl term ->
  b_set_raw (boot env) = None ->
  init_outcome P (booted X term (loop w)) = (l1, (fin, None)) ->
  Forall sane_flush (flush_first env) ->
  Forall sane_flush (flush_final env) ->
  Run P X env w = (r, w') ->
  r <> Pending ->
  exists lx added,
    log w' = log w ++ added /\
    shutdown_ran_once X fin lx added /\
    (flush_write_buf lx = false -> existsb hup_in (wakes env) = true) /\
    controlling_term (loop w') = None.
Proof.
  intros Hapi Hpipe Hopen Hraw Hinit Hs1 Hs2 Hrun Hr.
  destruct (Run_after_boot P X env w term l1 fin Hpipe Hopen Hraw Hinit)
    as (pre & Hpre & Heq).
  rewrite Heq in Hrun. clear Heq.
  apply defer_exit in Hrun as [Hnp ->]; [| done].
  set (body := modify (with_death_signal SIGNULL) ;;;
               modify (with_exit_code 0) ;;; main_loop P X (wakes env)) in *.
  set (w2 := mkWorld l1 (log w ++ pre)) in *.
  destruct (defer (shutdown X fin (flush_first env) (flush_final env)) body w2)
    as [ri wi] eqn:Hi.
  apply defer_exit in Hi as [_ ->]; [| done].
  assert (Hst : steady (existsb hup_in (wakes env)) body).
  { unfold body. apply steady_bind; [apply steady_modify; intros []; by split |].
    intros _. apply steady_bind; [apply steady_modify; intros []; by split |].
    intros _. by apply steady_main_loop. }
  destruct (Hst w2) as (Ht & Hf & ex & Hlog & Hex).
  subst w2. cbn [fst snd loop log] in *.
  destruct (init_outcome_private P _ _ _ Hapi Hinit) as [Ht1 Hf1].
  assert (Hterm1 : controlling_term l1 = Some term)
    by (rewrite Ht1; unfold booted; by destruct (loop w)).
  assert (Hflush1 : flush_write_buf l1 = true)
    by (rewrite Hf1; unfold booted; by destruct (loop w)).
  destruct (body _).2 as [lx lgx]. cbn [loop log] in *.
  destruct (shutdown_wrote X fin (flush_first env) (flush_final env) lx lgx term
              ltac:(congruence) Hs1 Hs2) as (ws1 & ws2 & buf & Hsh).
  rewrite Hsh. cbn [snd].
  rewrite (restore_term_attached _ _ term) by (rewrite <- Hterm1, <- Ht; by destruct lx).
  cbn [snd loop log].
  exists lx, ((pre ++ ex) ++ shutdown_steps X fin lx ws1 ws2). repeat split.
  - rewrite Hlog. unfold shutdown_steps. rewrite <- !app_assoc. reflexivity.
  - exists (pre ++ ex), ws1, ws2. split; [done |]. apply Forall_app. split; [done |].
    eapply Forall_impl; [exact Hex |]. apply loop_event_before_shutdown.
  - intros Hoff. destruct (existsb hup_in (wakes env)); [done |].
    rewrite Hf in Hoff by done. congruence.
  - by destruct lx.
Qed.

Lemma shutdown_steps_restore_last (X : Externals) (fin : bytes) (lx : Loop)
    (ws1 ws2 : list bytes) :
  exists steps,
    shutdown_steps X fin lx ws1 ws2 = steps ++ [EvRestore] /\ EvRestore ∉ steps.
Proof.
  unfold shutdown_steps. eexists. split.
  - rewrite !app_assoc. reflexivity.
  - rewrite !not_elem_of_app. repeat split.
    + destruct (flush_write_buf lx); [| apply not_elem_of_nil].
      rewrite not_elem_of_cons. split; [done |].
      by intros (d & ? & _)%list_elem_of_fmap.
    + by intros ?%list_elem_of_singleton.
    + destruct (len fin =? 0); [apply not_elem_of_nil |].
      by intros ?%list_elem_of_singleton.
    + rewrite !not_elem_of_cons. repeat split; try done. apply not_elem_of_nil.
    + by intros (d & ? & _)%list_elem_of_fmap.
Qed.

(** X14: once [Run] has opened the controlling terminal, every way out of
    it (the failed switch to raw mode, an error of the initialization
    callback, a return from the loop with or without error, a panic) gives
    the terminal back: restore-and-close is the last thing logged, it
    happens once, and [controlling_term] is nil again. The callbacks act
    through the exported methods and the write primitive reports no more
    than it was handed. *)
Theorem Run_releases_terminal (P : Program) (X : Externals) (env : RunEnv)
    (w : World) (term : Term) (r : res error) (w' : World) :
  api_program P ->
  b_pipe (boot env) = None ->
  b_open_term (boot env) = inl term ->
  Forall sane_flush (flush_first env) ->
  Forall sane_flush (flush_final env) ->
  Run P X env w = (r, w') ->
  r <> Pending ->
  controlling_term (loop w') = None /\
  exists before,
    log w' = log w ++ before ++ [EvRestore] /\ EvRestore ∉ before.
Proof.
  intros Hapi Hpipe Hopen Hs1 Hs2 Hrun Hr.
  destruct (b_set_raw (boot env)) as [e0 |] eqn:Hraw.
  { rewrite (Run_raw_failure P X env w term e0 Hpipe Hopen Hraw) in Hrun.
    injection Hrun as <- <-. cbn [loop log]. split; [by destruct (loop w) |].
    exists []. split; [done | apply not_elem_of_nil]. }
  destruct (init_outcome P (booted X term (loop w))) as [l1 [fin [e |]]] eqn:Hinit.
  - destruct (init_outcome_private P _ _ _ Hapi Hinit) as [Ht1 _].
    assert (Hterm1 : controlling_term l1 = Some term)
      by (rewrite Ht1; unfold booted; by destruct (loop w)).
    destruct (Run_init_error P X env w term l1 fin e Hpipe Hopen Hraw Hinit Hterm1)
      as (pre & Hpre & Heq).
    rewrite Heq in Hrun. injection Hrun as <- <-. cbn [loop log].
    split; [by destruct l1 |]. exists pre. split; [done |].
    intros Hin. rewrite Forall_forall in Hpre. by apply Hpre in Hin.
  - destruct (Run_loop_exit P X env w term l1 fin r w' Hapi Hpipe Hopen Hraw
                Hinit Hs1 Hs2 Hrun Hr)
      as (lx & added & Hlog & (pre & ws1 & ws2 & -> & Hpre) & _ & Hterm).
    split; [done |].
    destruct (shutdown_steps_restore_last X fin lx ws1 ws2) as (steps & Heq & Hsteps).
    rewrite Heq in Hlog.
    exists (pre ++ steps). split; [by rewrite Hlog, <- !app_assoc |].
    rewrite not_elem_of_app. split; [| done].
    intros Hin. rewrite Forall_forall in Hpre. by apply Hpre in Hin.
Qed.

Lemma Run_releases_terminal_witness :
  let w' := (Run failing_init_program demo_ext still_env
               (mkWorld (with_OnInitialize (Some 0%nat) CreateLoop) [])).2 in
  controlling_term (loop w') = None /\
  exists before,
    log w' = [] ++ before ++ [EvRestore] /\ EvRestore ∉ before.
Proof.
  intros w'.
  apply (Run_releases_terminal failing_init_program demo_ext still_env
           (mkWorld (with_OnInitialize (Some 0%nat) CreateLoop) []) (mkTerm 3)
           (Ret (Some (ErrOther 1))) w').
  - constructor; intros; apply keeps_private_refl.
  - reflexivity.
  - reflexivity.
  - repeat constructor. intros buf. simpl. lia.
  - repeat constructor. intros buf. simpl. lia.
  - vm_compute. reflexivity.
  - discriminate.
Defined.

(** ** Stopping the loop *)

(** X15: [Quit] and the handlers of SIGINT, SIGTERM and SIGHUP all stop the
    loop the same way: at its next test of [keep_going] the main loop
    returns nil without taking another wake-up, whatever wake-ups are still
    to come. [Quit] leaves its exit code and no death signal of its own;
    the handlers record their signal; only the handler of SIGHUP clears
    [flush_write_buf]; the handlers of SIGTSTP and SIGPIPE change nothing. *)
Theorem stopping_the_loop (P : Program) (X : Externals) (ks : list Wake) (w : World)
    (code : Z) :
  let stops (w1 : World) := main_loop P X ks w1 = (Ret None, w1) in
  (let w1 := mkWorld (Quit code (loop w)) (log w) in
   stops w1 /\ ExitCode (loop w1) = code /\
   death_signal (loop w1) = death_signal (loop w) /\
   flush_write_buf (loop w1) = flush_write_buf (loop w)) /\
  (exists w1, on_SIGINT w = (Ret None, w1) /\ stops w1 /\
     death_signal (loop w1) = SIGINT /\
     flush_write_buf (loop w1) = flush_write_buf (loop w) /\
     exit_code (loop w1) = exit_code (loop w)) /\
  (exists w1, on_SIGTERM w = (Ret None, w1) /\ stops w1 /\
     death_signal (loop w1) = SIGTERM /\
     flush_write_buf (loop w1) = flush_write_buf (loop w) /\
     exit_code (loop w1) = exit_code (loop w)) /\
  (exists w1, on_SIGHUP w = (Ret None, w1) /\ stops w1 /\
     death_signal (loop w1) = SIGHUP /\
     flush_write_buf (loop w1) = false /\
     exit_code (loop w1) = exit_code (loop w)) /\
  on_SIGTSTP w = (Ret None, w) /\
  on_SIGPIPE w = (Ret None, w).
Proof.
  destruct w as [l lg]. destruct l. cbv zeta. repeat split.
  - by destruct ks.
  - eexists. split; [reflexivity |]. repeat split. by destruct ks.
  - eexists. split; [reflexivity |]. repeat split. by destruct ks.
  - eexists. split; [reflexivity |]. repeat split. by destruct ks.
Qed.
